(** * Weighted undo/redo text buffer (undoredo.cpp)

    A shallow embedding of [src/undoredo/undoredo.cpp]: the tokenizer
    [get_args], the two history stacks [WeightedUndoStack] and [RedoStack],
    and the command loop of [main], followed by the properties of the
    specification that were checked against it.

    Modelling conventions.
    - [std::string] is [string]; a [char] is an [ascii].
    - [int] is a [Z] between [INT_MIN] and [INT_MAX], with the wrap-around
      of the 32-bit machine written out where the source can leave that
      range: [std::stoi] throws [std::out_of_range]; the casts
      [static_cast<int>(s.size())] are [to_int]; the sum
      [totalWeight_ += a.weight] is [int_add], which wraps past [INT_MAX].
      The subtractions [totalWeight_ -= weight] stay in range as long as
      the weights are not negative, and a weight is negative only when a
      single token of 2^31 characters or more is appended; for such texts
      the source also throws from [erase], which the model does not follow.
    - The doubly linked list of [WeightedUndoStack] and the singly linked
      list of [RedoStack] are lists of [Action]s, newest node first (the order
      in which [clear] walks the [prev] links from [top_] / [head_]).
    - An uncaught C++ exception and a null pointer dereference are results of
      type [fault]; everything that can fail returns a [result]. *)

From Stdlib Require Import ZArith List String Ascii Bool Lia.
Import ListNotations.

Open Scope string_scope.
Open Scope Z_scope.
Open Scope list_scope.

(** ** Failures *)

Inductive fault : Type :=
| invalid_argument   (* std::invalid_argument thrown by std::stoi *)
| out_of_range       (* std::out_of_range thrown by std::stoi *)
| null_dereference.  (* [n->act] with [n == nullptr]: undefined behaviour *)

(** The thrown exceptions are defined error results; the dereference of a
    null pointer is not. *)
Definition defined_error (f : fault) : bool :=
  match f with
  | invalid_argument | out_of_range => true
  | null_dereference => false
  end.

Inductive result (A : Type) : Type :=
| Val (a : A)
| Fault (f : fault).
Arguments Val {A} a.
Arguments Fault {A} f.

Definition bind {A B : Type} (r : result A) (k : A -> result B) : result B :=
  match r with
  | Val a => k a
  | Fault f => Fault f
  end.

Notation "x <- r ;; k" := (bind r (fun x => k))
  (at level 61, r at next level, right associativity).

(** ** Strings *)

Definition str_empty (s : string) : bool :=
  match s with
  | EmptyString => true
  | String _ _ => false
  end.

Definition size (s : string) : Z := Z.of_nat (String.length s).

Definition push_back (s : string) (c : ascii) : string :=
  String.append s (String c EmptyString).

Definition space : ascii := ascii_of_nat 32.
Definition dquote : ascii := ascii_of_nat 34.

(** [get_args]: the loop over the characters of [command], with the three
    locals [in_quotes], [current_arg] and [args]. *)
Fixpoint get_args_loop (command : string) (in_quotes : bool)
    (current_arg : string) (args : list string) : list string :=
  match command with
  | EmptyString =>
      if negb (str_empty current_arg) then args ++ [current_arg] else args
  | String c rest =>
      if Ascii.eqb c space && negb in_quotes then
        if negb (str_empty current_arg)
        then get_args_loop rest in_quotes EmptyString (args ++ [current_arg])
        else get_args_loop rest in_quotes current_arg args
      else if Ascii.eqb c dquote then
        get_args_loop rest (negb in_quotes) current_arg args
      else
        get_args_loop rest in_quotes (push_back current_arg c) args
  end.

Definition get_args (command : string) : list string :=
  get_args_loop command false EmptyString [].

(** ** [std::stoi]

    The library function as the C++ standard describes it for base 10:
    leading white space is skipped, an optional sign is read, then the
    longest run of decimal digits; what follows is ignored.  No digit:
    [std::invalid_argument]; a value outside [int]: [std::out_of_range]. *)

Definition INT_MAX : Z := 2147483647.
Definition INT_MIN : Z := -2147483648.

(** [static_cast<int>] of a wider value: the 32-bit two's complement value. *)
Definition to_int (z : Z) : Z := (z - INT_MIN) mod 4294967296 + INT_MIN.

(** [x += y] on the [int] [totalWeight_].  The total is never negative when
    the sum is taken (every member function ends by clamping it at 0 or by
    setting it to 0), so the sum can leave the range of [int] only upwards,
    where it wraps around once; [int_add_to_int] below states that this is
    the two's complement sum on that domain. *)
Definition int_add (x y : Z) : Z :=
  if x + y >? INT_MAX then x + y - 4294967296 else x + y.

Definition isspace (c : ascii) : bool :=
  let n := nat_of_ascii c in
  Nat.eqb n 32 || (Nat.leb 9 n && Nat.leb n 13).

Definition digit_value (c : ascii) : option Z :=
  let n := nat_of_ascii c in
  if Nat.leb 48 n && Nat.leb n 57 then Some (Z.of_nat n - 48) else None.

Fixpoint skip_spaces (s : string) : string :=
  match s with
  | String c rest => if isspace c then skip_spaces rest else s
  | EmptyString => s
  end.

(** [read_digits s acc seen] is [None] when no digit has been read. *)
Fixpoint read_digits (s : string) (acc : Z) (seen : bool) : option Z :=
  match s with
  | String c rest =>
      match digit_value c with
      | Some d => read_digits rest (10 * acc + d) true
      | None => if seen then Some acc else None
      end
  | EmptyString => if seen then Some acc else None
  end.

Definition stoi (s : string) : result Z :=
  let s1 := skip_spaces s in
  let '(negative, s2) :=
    match s1 with
    | String c rest =>
        if Ascii.eqb c "-"%char then (true, rest)
        else if Ascii.eqb c "+"%char then (false, rest)
        else (false, s1)
    | EmptyString => (false, s1)
    end in
  match read_digits s2 0 false with
  | None => Fault invalid_argument
  | Some v =>
      let n := if negative then - v else v in
      if (INT_MIN <=? n) && (n <=? INT_MAX) then Val n else Fault out_of_range
  end.

(** ** Actions and the two stacks *)

Record Action : Type := mkAction {
  prev : string;   (* string before the action *)
  next : string;   (* string after the action *)
  weight : Z       (* weight of the action *)
}.

Definition sum_weights (l : list Action) : Z :=
  fold_right (fun a acc => weight a + acc) 0 l.

Module WeightedUndoStack.

(** [nodes] lists the actions from [top_] down to [bottom_]. *)
Record t : Type := mk {
  nodes : list Action;
  totalWeight_ : Z;
  maxWeight_ : Z
}.

Definition init : t := mk [] 0 0.

Definition clear (s : t) : t := mk [] 0 (maxWeight_ s).

Definition empty (s : t) : bool :=
  match nodes s with
  | [] => true
  | _ :: _ => false
  end.

(** The [while] loop of [trim], on the nodes taken from [bottom_] upwards. *)
Fixpoint trim_loop (from_bottom : list Action) (total maxw : Z)
    : list Action * Z :=
  match from_bottom with
  | [] => ([], total)
  | b :: above =>
      if total >? maxw
      then trim_loop above (total - weight b) maxw
      else (from_bottom, total)
  end.

Definition clamp0 (z : Z) : Z := if z <? 0 then 0 else z.

Definition trim (s : t) : t :=
  let '(kept, total) :=
    trim_loop (rev (nodes s)) (totalWeight_ s) (maxWeight_ s) in
  mk (rev kept) (clamp0 total) (maxWeight_ s).

Definition setMaxWeight (mw : Z) (s : t) : t :=
  trim (mk (nodes s) (totalWeight_ s) (if mw <? 0 then 0 else mw)).

Definition push (a : Action) (s : t) : t :=
  trim (mk (a :: nodes s) (int_add (totalWeight_ s) (weight a)) (maxWeight_ s)).

(** [pop] reads [top_->act] without a test: on an empty stack that is a
    null pointer dereference. *)
Definition pop (s : t) : result (Action * t) :=
  match nodes s with
  | [] => Fault null_dereference
  | a :: below =>
      Val (a, mk below (clamp0 (totalWeight_ s - weight a)) (maxWeight_ s))
  end.

End WeightedUndoStack.

Module RedoStack.

(** The actions from [head_] along the [prev] links. *)
Definition t : Type := list Action.

Definition init : t := [].

Definition clear (s : t) : t := [].

Definition empty (s : t) : bool :=
  match s with
  | [] => true
  | _ :: _ => false
  end.

Definition push (a : Action) (s : t) : t := a :: s.

Definition pop (s : t) : result (Action * t) :=
  match s with
  | [] => Fault null_dereference
  | a :: below => Val (a, below)
  end.

End RedoStack.

(** ** The session: the locals of [main] *)

Record Session : Type := mkSession {
  current : string;
  created : bool;
  maxWeight : Z;
  undoStack : WeightedUndoStack.t;
  redoStack : RedoStack.t
}.

Definition initial : Session :=
  mkSession EmptyString false 0 WeightedUndoStack.init RedoStack.init.

(** What a command writes to [std::cout], one entry per line written. *)
Definition output : Type := list string.

Definition first_char (tok : string) : ascii :=
  match tok with
  | EmptyString => zero
  | String c _ => c
  end.

(** The [for] loop of REPLACE: the new text and the number of replacements. *)
Fixpoint replace_loop (findc repc : ascii) (s : string) : string * Z :=
  match s with
  | EmptyString => (EmptyString, 0)
  | String c rest =>
      let '(rest', count) := replace_loop findc repc rest in
      if Ascii.eqb c findc
      then (String repc rest', count + 1)
      else (String c rest', count)
  end.

(** The branches of the command loop, after their arguments are read. *)

Definition exec_CREATE (mw : Z) (text : string) (st : Session) : Session :=
  mkSession text true mw
    (WeightedUndoStack.setMaxWeight mw (WeightedUndoStack.clear (undoStack st)))
    (RedoStack.clear (redoStack st)).

Definition record_action (a : Action) (st : Session) : Session :=
  mkSession (next a) (created st) (maxWeight st)
    (WeightedUndoStack.push a (undoStack st))
    (RedoStack.clear (redoStack st)).

Definition exec_APPEND (add : string) (st : Session) : Session :=
  record_action
    (mkAction (current st) (String.append (current st) add)
       (to_int (size add))) st.

Definition exec_REPLACE (findc repc : ascii) (st : Session) : Session :=
  let '(text, count) := replace_loop findc repc (current st) in
  record_action (mkAction (current st) text count) st.

Definition exec_DELETE (idx0 : Z) (st : Session) : Session :=
  let sz := to_int (size (current st)) in
  let idx1 := if idx0 <? 0 then 0 else idx0 in
  let idx := if idx1 >? sz then sz else idx1 in
  let removed := sz - idx in
  record_action
    (mkAction (current st) (substring 0 (Z.to_nat idx) (current st)) removed)
    st.

Definition msg_undo : string := "Error: Nothing to undo.".
Definition msg_redo : string := "Error: Nothing to redo.".

Definition exec_UNDO (st : Session) : result (Session * output) :=
  if WeightedUndoStack.empty (undoStack st) then Val (st, [msg_undo])
  else
    p <- WeightedUndoStack.pop (undoStack st) ;;
    let '(a, undo') := p in
    Val (mkSession (prev a) (created st) (maxWeight st)
           undo' (RedoStack.push a (redoStack st)), []).

Definition exec_REDO (st : Session) : result (Session * output) :=
  if RedoStack.empty (redoStack st) then Val (st, [msg_redo])
  else
    p <- RedoStack.pop (redoStack st) ;;
    let '(a, redo') := p in
    Val (mkSession (next a) (created st) (maxWeight st)
           (WeightedUndoStack.push a (undoStack st)) redo', []).

Definition exec_PRINT (st : Session) : result (Session * output) :=
  Val (st, [current st]).

Definition skip (st : Session) : result (Session * output) := Val (st, []).

(** One iteration of the [while (std::getline ...)] loop: [step_args] is the
    body once the line is split into [args]. *)
Definition step_args (st : Session) (args : list string)
    : result (Session * output) :=
  match args with
  | [] => skip st
  | command :: operands =>
      if String.eqb command "CREATE" then
        match operands with
        | a1 :: a2 :: _ =>
            mw <- stoi a1 ;; Val (exec_CREATE mw a2 st, [])
        | _ => skip st
        end
      else if negb (created st) then skip st
      else if String.eqb command "APPEND" then
        match operands with
        | add :: _ => Val (exec_APPEND add st, [])
        | _ => skip st
        end
      else if String.eqb command "REPLACE" then
        match operands with
        | a1 :: a2 :: _ =>
            Val (exec_REPLACE (first_char a1) (first_char a2) st, [])
        | _ => skip st
        end
      else if String.eqb command "DELETE" then
        match operands with
        | a1 :: _ => idx <- stoi a1 ;; Val (exec_DELETE idx st, [])
        | _ => skip st
        end
      else if String.eqb command "UNDO" then exec_UNDO st
      else if String.eqb command "REDO" then exec_REDO st
      else if String.eqb command "PRINT" then exec_PRINT st
      else skip st
  end.

Definition step (st : Session) (line : string) : result (Session * output) :=
  if str_empty line then skip st else step_args st (get_args line).

(** The whole loop over the input lines: the output written and either the
    final session or the fault that ended the program. *)
Fixpoint run (st : Session) (lines : list string) : output * result Session :=
  match lines with
  | [] => ([], Val st)
  | line :: rest =>
      match step st line with
      | Fault f => ([], Fault f)
      | Val (st', out) =>
          let '(out', r) := run st' rest in (out ++ out', r)
      end
  end.

Definition main (lines : list string) : output * result Session :=
  run initial lines.


(** ** The three editing commands as data

    [Edit] names the mutate-and-record branches with their arguments already
    read; [action_of] is the [Action] the branch builds from the buffer. *)

Inductive Edit : Type :=
| Append (add : string)
| Replace (findc repc : ascii)
| Delete (idx : Z).

Definition exec_edit (e : Edit) (st : Session) : Session :=
  match e with
  | Append add => exec_APPEND add st
  | Replace findc repc => exec_REPLACE findc repc st
  | Delete idx => exec_DELETE idx st
  end.

Definition exec_edits (es : list Edit) (st : Session) : Session :=
  fold_left (fun s e => exec_edit e s) es st.

(** [reads line e]: the line is one that the loop dispatches to the branch
    of [e] (extra tokens are allowed, as in the source). *)
Definition reads (line : string) (e : Edit) : Prop :=
  str_empty line = false /\
  match e with
  | Append add => exists more, get_args line = "APPEND" :: add :: more
  | Replace findc repc =>
      exists a1 a2 more,
        get_args line = "REPLACE" :: a1 :: a2 :: more /\
        first_char a1 = findc /\ first_char a2 = repc
  | Delete idx =>
      exists a1 more,
        get_args line = "DELETE" :: a1 :: more /\ stoi a1 = Val idx
  end.

(** Sessions that the program can be in after reading some input. *)
Definition reachable (st : Session) : Prop :=
  exists lines out, main lines = (out, Val st).

(** The number of operands each command reads (the guards on [args.size()]). *)
Definition operands_needed (command : string) : option nat :=
  if String.eqb command "CREATE" then Some 2%nat
  else if String.eqb command "APPEND" then Some 1%nat
  else if String.eqb command "REPLACE" then Some 2%nat
  else if String.eqb command "DELETE" then Some 1%nat
  else if String.eqb command "UNDO" then Some 0%nat
  else if String.eqb command "REDO" then Some 0%nat
  else if String.eqb command "PRINT" then Some 0%nat
  else None.

(** ** Invariants *)

Definition nonneg (l : list Action) : Prop := Forall (fun a => 0 <= weight a) l.

(** The cached total is the sum of non-negative weights, under a
    non-negative cap. *)
Definition WF (s : WeightedUndoStack.t) : Prop :=
  WeightedUndoStack.totalWeight_ s = sum_weights (WeightedUndoStack.nodes s) /\
  nonneg (WeightedUndoStack.nodes s) /\
  0 <= WeightedUndoStack.maxWeight_ s.

(** Walking the undo nodes from the newest one back in time, starting from
    the text [cur], ends at the text [origin]. *)
Fixpoint back (cur : string) (l : list Action) (origin : string) : Prop :=
  match l with
  | [] => cur = origin
  | a :: older => next a = cur /\ back (prev a) older origin
  end.

(** Walking the redo nodes forward in time from [cur] ends at [final]. *)
Fixpoint forth (cur : string) (l : list Action) (final : string) : Prop :=
  match l with
  | [] => cur = final
  | a :: later => prev a = cur /\ forth (next a) later final
  end.

Record Inv (st : Session) : Prop := mkInv {
  inv_wf : WF (undoStack st);
  inv_cap : WeightedUndoStack.totalWeight_ (undoStack st)
            <= WeightedUndoStack.maxWeight_ (undoStack st);
  inv_redo : nonneg (redoStack st);
  inv_back : exists origin,
      back (current st) (WeightedUndoStack.nodes (undoStack st)) origin;
  inv_forth : exists final, forth (current st) (redoStack st) final
}.

(** The [Action] that the branch of [e] builds when the buffer is [buf]. *)
Definition action_of (e : Edit) (buf : string) : Action :=
  match e with
  | Append add => mkAction buf (String.append buf add) (to_int (size add))
  | Replace findc repc =>
      let '(text, count) := replace_loop findc repc buf in
      mkAction buf text count
  | Delete idx0 =>
      let sz := to_int (size buf) in
      let idx1 := if idx0 <? 0 then 0 else idx0 in
      let idx := if idx1 >? sz then sz else idx1 in
      mkAction buf (substring 0 (Z.to_nat idx) buf) (sz - idx)
  end.

(** Every edit of the sequence, run in order from [buf], has weight 0. *)
Fixpoint all_zero_weight (buf : string) (es : list Edit) : Prop :=
  match es with
  | [] => True
  | e :: rest =>
      weight (action_of e buf) = 0 /\
      all_zero_weight (next (action_of e buf)) rest
  end.

(** The cumulative weight of the edits, run in order from [buf]. *)
Fixpoint edits_weight (buf : string) (es : list Edit) : Z :=
  match es with
  | [] => 0
  | e :: rest =>
      weight (action_of e buf) + edits_weight (next (action_of e buf)) rest
  end.

Definition undo_lines (n : nat) : list string := repeat "UNDO" n.

(** [r] is a session or a thrown exception, not a null dereference. *)
Definition no_null_dereference {A : Type} (r : result A) : bool :=
  match r with
  | Val _ => true
  | Fault f => defined_error f
  end.

(** [creates line cap text]: the line is a CREATE that the loop executes
    with capacity [cap] and initial text [text]. *)
Definition creates (line : string) (cap : Z) (text : string) : Prop :=
  str_empty line = false /\
  exists a1 more,
    get_args line = "CREATE" :: a1 :: text :: more /\ stoi a1 = Val cap.

(** Does the character occur in the string? *)
Fixpoint occurs (c : ascii) (s : string) : bool :=
  match s with
  | EmptyString => false
  | String d rest => Ascii.eqb d c || occurs c rest
  end.

(** ** Vocabulary for the further properties *)

(** A token between double quotes, as a line would carry it. *)
Definition quoted (t : string) : string :=
  String dquote (String.append t (String dquote EmptyString)).

(** The tokens, each written by [wrap], with one space between them. *)
Fixpoint join_with (wrap : string -> string) (toks : list string) : string :=
  match toks with
  | [] => EmptyString
  | t :: rest =>
      String.append (wrap t)
        match rest with
        | [] => EmptyString
        | _ :: _ => String space (join_with wrap rest)
        end
  end.

Definition flatten (toks : list string) : string :=
  fold_right String.append EmptyString toks.

Fixpoint remove_char (c : ascii) (s : string) : string :=
  match s with
  | EmptyString => EmptyString
  | String d rest =>
      if Ascii.eqb d c then remove_char c rest else String d (remove_char c rest)
  end.


Fixpoint only_spaces (s : string) : bool :=
  match s with
  | EmptyString => true
  | String d rest => Ascii.eqb d space && only_spaces rest
  end.

Definition redo_lines (n : nat) : list string := repeat "REDO" n.

(** Every edit of the sequence, run in order from [buf], has a weight that
    is not negative. *)
Fixpoint all_nonneg_weight (buf : string) (es : list Edit) : Prop :=
  match es with
  | [] => True
  | e :: rest =>
      0 <= weight (action_of e buf) /\
      all_nonneg_weight (next (action_of e buf)) rest
  end.

(** The cap and the length of the buffer together fit in an [int].  While
    this holds in every session visited, no weight is cast out of range and
    the cached total never wraps. *)
Definition fits_int (st : Session) : bool :=
  WeightedUndoStack.maxWeight_ (undoStack st) + size (current st) <=? INT_MAX.

Fixpoint fits_run (st : Session) (lines : list string) : bool :=
  match lines with
  | [] => true
  | line :: rest =>
      match step st line with
      | Val (st', _) => fits_int st' && fits_run st' rest
      | Fault _ => true
      end
  end.

(** Sessions reached by an input along which [fits_int] always held. *)
Definition reachable_fits (st : Session) : Prop :=
  exists lines out,
    fits_run initial lines = true /\ main lines = (out, Val st).

(** An input that makes the cached total overflow: a buffer of [n] letters
    [a], created with the largest capacity, and REPLACE lines that turn
    every letter into [b] and back, each of weight [n]. *)
Fixpoint letters (n : nat) (c : ascii) : string :=
  match n with
  | O => EmptyString
  | S n' => String c (letters n' c)
  end.





(** What holds in every reachable session, whatever the sizes: the two
    lists form a time line through the buffer, the cached total is not
    negative, the cap is the clamped capacity, and nothing has happened
    before the first CREATE. *)
Record Basic (st : Session) : Prop := mkBasic {
  basic_back : exists origin,
      back (current st) (WeightedUndoStack.nodes (undoStack st)) origin;
  basic_forth : exists final, forth (current st) (redoStack st) final;
  basic_total : 0 <= WeightedUndoStack.totalWeight_ (undoStack st);
  basic_cap :
    WeightedUndoStack.maxWeight_ (undoStack st) = Z.max 0 (maxWeight st);
  basic_fresh : created st = false -> st = initial
}.

(** What the two lists hold together fits under the cap; the cap of the
    stack is the capacity read by CREATE, clamped; and nothing has happened
    before the first CREATE. *)
Record Budget (st : Session) : Prop := mkBudget {
  budget_fits :
    WeightedUndoStack.totalWeight_ (undoStack st) + sum_weights (redoStack st)
    <= WeightedUndoStack.maxWeight_ (undoStack st);
  budget_cap :
    WeightedUndoStack.maxWeight_ (undoStack st) = Z.max 0 (maxWeight st);
  budget_fresh : created st = false -> st = initial
}.

(** * Facts about the stacks *)

Module Import UndoFacts.
Import WeightedUndoStack.

Lemma sum_weights_app (l1 l2 : list Action) :
  sum_weights (l1 ++ l2) = sum_weights l1 + sum_weights l2.
Proof.
  induction l1 as [|a l1 IH]; simpl; [reflexivity|].
  rewrite IH. ring.
Qed.

Lemma sum_weights_rev (l : list Action) :
  sum_weights (rev l) = sum_weights l.
Proof.
  induction l as [|a l IH]; simpl; [reflexivity|].
  rewrite sum_weights_app, IH. simpl. ring.
Qed.

Lemma sum_weights_nonneg (l : list Action) :
  nonneg l -> 0 <= sum_weights l.
Proof.
  induction 1 as [|a l Ha _ IH]; simpl; lia.
Qed.

Lemma clamp0_nonneg (z : Z) : 0 <= clamp0 z.
Proof. unfold clamp0. destruct (Z.ltb_spec z 0); lia. Qed.

Lemma clamp0_id (z : Z) : 0 <= z -> clamp0 z = z.
Proof. unfold clamp0. destruct (Z.ltb_spec z 0); lia. Qed.

Lemma clamp0_max (z : Z) : clamp0 z = Z.max 0 z.
Proof. unfold clamp0. destruct (Z.ltb_spec z 0); lia. Qed.

(** What the loop leaves: the nodes it dropped form an initial segment
    (from the bottom), their weights were subtracted, and it stopped
    because nothing was left or the total fitted. *)
Lemma trim_loop_spec (l : list Action) :
  forall total maxw kept total',
    trim_loop l total maxw = (kept, total') ->
    exists dropped,
      l = dropped ++ kept /\
      total' = total - sum_weights dropped /\
      (kept = [] \/ total' <= maxw).
Proof.
  induction l as [|b above IH]; intros total maxw kept total' H; simpl in H.
  - inversion H; subst. exists []. simpl. split; [reflexivity|].
    split; [lia | now left].
  - destruct (Z.gtb_spec total maxw) as [Hgt|Hle].
    + apply IH in H. destruct H as (d & Hl & Ht & Hstop).
      exists (b :: d). simpl. rewrite Hl. split; [reflexivity|].
      split; [lia | exact Hstop].
    + inversion H; subst. exists []. simpl. split; [reflexivity|].
      split; [lia | right; lia].
Qed.

Lemma trim_loop_fits (l : list Action) (total maxw : Z) :
  total <= maxw -> trim_loop l total maxw = (l, total).
Proof.
  intros H. destruct l as [|b above]; simpl; [reflexivity|].
  destruct (Z.gtb_spec total maxw); [lia | reflexivity].
Qed.

(** [trim] keeps the newest nodes and drops an older part. *)
Lemma trim_spec (s : t) :
  exists evicted,
    nodes s = nodes (trim s) ++ evicted /\
    totalWeight_ (trim s) = clamp0 (totalWeight_ s - sum_weights evicted) /\
    maxWeight_ (trim s) = maxWeight_ s /\
    (nodes (trim s) = [] \/
     totalWeight_ s - sum_weights evicted <= maxWeight_ s).
Proof.
  unfold trim.
  destruct (trim_loop (rev (nodes s)) (totalWeight_ s) (maxWeight_ s))
    as [kept total'] eqn:E.
  apply trim_loop_spec in E. destruct E as (d & Hl & Ht & Hstop).
  exists (rev d). simpl. rewrite sum_weights_rev.
  split.
  - rewrite <- rev_app_distr, <- Hl, rev_involutive. reflexivity.
  - split; [now rewrite Ht|]. split; [reflexivity|].
    destruct Hstop as [-> | Hle]; [now left | right; lia].
Qed.

Lemma trim_fits (s : t) :
  totalWeight_ s <= maxWeight_ s ->
  trim s = mk (nodes s) (clamp0 (totalWeight_ s)) (maxWeight_ s).
Proof.
  intros H. unfold trim. rewrite trim_loop_fits by exact H.
  now rewrite rev_involutive.
Qed.

Lemma nonneg_app_l (l1 l2 : list Action) : nonneg (l1 ++ l2) -> nonneg l1.
Proof. unfold nonneg. rewrite Forall_app. tauto. Qed.

(** [trim] re-establishes the cap and keeps the cached total exact. *)
Lemma trim_WF (s : t) :
  WF s -> WF (trim s) /\ totalWeight_ (trim s) <= maxWeight_ (trim s).
Proof.
  intros (Htot & Hnn & Hmax).
  destruct (trim_spec s) as (ev & Hn & Ht & Hm & Hstop).
  assert (Hk : nonneg (nodes (trim s))).
  { apply nonneg_app_l with ev. now rewrite <- Hn. }
  assert (Hsum : totalWeight_ s - sum_weights ev = sum_weights (nodes (trim s))).
  { rewrite Htot, Hn at 1. rewrite sum_weights_app. ring. }
  pose proof (sum_weights_nonneg _ Hk) as Hk0.
  assert (Ht' : totalWeight_ (trim s) = sum_weights (nodes (trim s))).
  { rewrite Ht, Hsum. now apply clamp0_id. }
  split.
  - split; [exact Ht'|]. split; [exact Hk | now rewrite Hm].
  - rewrite Hm. destruct Hstop as [Hnil | Hle].
    + rewrite Ht', Hnil. simpl. exact Hmax.
    + rewrite Ht'. lia.
Qed.

Lemma to_int_range (z : Z) : INT_MIN <= to_int z <= INT_MAX.
Proof.
  unfold to_int, INT_MIN, INT_MAX.
  pose proof (Z.mod_pos_bound (z - -2147483648) 4294967296 ltac:(lia)). lia.
Qed.

Lemma to_int_small (z : Z) : INT_MIN <= z <= INT_MAX -> to_int z = z.
Proof.
  unfold to_int, INT_MIN, INT_MAX. intros H.
  rewrite Z.mod_small by lia. lia.
Qed.

Lemma int_add_small (x y : Z) : x + y <= INT_MAX -> int_add x y = x + y.
Proof.
  intros H. unfold int_add. destruct (Z.gtb_spec (x + y) INT_MAX); [lia|].
  reflexivity.
Qed.

Lemma int_add_le (x y : Z) : int_add x y <= x + y.
Proof. unfold int_add. destruct (Z.gtb_spec (x + y) INT_MAX); lia. Qed.

(** On the values the source computes with, [int_add] is the two's
    complement sum. *)
Lemma int_add_to_int (x y : Z) :
  0 <= x <= INT_MAX -> INT_MIN <= y <= INT_MAX ->
  int_add x y = to_int (x + y).
Proof.
  unfold int_add, to_int, INT_MIN, INT_MAX. intros Hx Hy.
  destruct (Z.gtb_spec (x + y) 2147483647).
  - assert (Hm : x + y - 2147483648
                 = (x + y - -2147483648) mod 4294967296)
      by (apply Z.mod_unique with 1; lia).
    rewrite <- Hm. lia.
  - rewrite Z.mod_small by lia. lia.
Qed.

Lemma push_WF (a : Action) (s : t) :
  WF s -> 0 <= weight a -> totalWeight_ s + weight a <= INT_MAX ->
  WF (push a s) /\ totalWeight_ (push a s) <= maxWeight_ (push a s).
Proof.
  intros (Htot & Hnn & Hmax) Ha Hfit. unfold push. apply trim_WF.
  split; simpl; [rewrite int_add_small by exact Hfit; rewrite Htot; ring|].
  split; [now constructor | exact Hmax].
Qed.

Lemma trim_total_nonneg (s : t) : 0 <= totalWeight_ (trim s).
Proof.
  destruct (trim_spec s) as (ev & _ & Ht & _). rewrite Ht. apply clamp0_nonneg.
Qed.

Lemma push_total_nonneg (a : Action) (s : t) : 0 <= totalWeight_ (push a s).
Proof. apply trim_total_nonneg. Qed.

Lemma setMaxWeight_WF (mw : Z) (s : t) :
  totalWeight_ s = sum_weights (nodes s) -> nonneg (nodes s) ->
  WF (setMaxWeight mw s) /\
  totalWeight_ (setMaxWeight mw s) <= maxWeight_ (setMaxWeight mw s).
Proof.
  intros Htot Hnn. unfold setMaxWeight. apply trim_WF.
  split; simpl; [exact Htot|]. split; [exact Hnn|].
  destruct (Z.ltb_spec mw 0); lia.
Qed.

Lemma pop_WF (a : Action) (s s' : t) :
  WF s -> pop s = Val (a, s') ->
  WF s' /\ nodes s = a :: nodes s' /\
  totalWeight_ s' = totalWeight_ s - weight a /\
  maxWeight_ s' = maxWeight_ s.
Proof.
  intros (Htot & Hnn & Hmax) H. unfold pop in H.
  destruct (nodes s) as [|b below] eqn:E; [discriminate|].
  inversion H; subst; clear H. simpl in *.
  inversion Hnn as [|? ? Hb Hbelow]; subst.
  pose proof (sum_weights_nonneg _ Hbelow) as H0.
  assert (Hc : clamp0 (totalWeight_ s - weight a) = sum_weights below).
  { rewrite Htot. replace (weight a + sum_weights below - weight a)
      with (sum_weights below) by ring. now apply clamp0_id. }
  split; [split; [exact Hc | split; assumption]|].
  split; [reflexivity|]. split; [rewrite Hc, Htot; ring | reflexivity].
Qed.

(** The nodes of [push a s] are an initial segment of [a :: nodes s]. *)
Lemma push_nodes (a : Action) (s : t) :
  exists evicted, a :: nodes s = nodes (push a s) ++ evicted.
Proof.
  unfold push.
  destruct (trim_spec (mk (a :: nodes s) (int_add (totalWeight_ s) (weight a))
                         (maxWeight_ s))) as (ev & Hn & _).
  exists ev. exact Hn.
Qed.

Lemma push_maxWeight (a : Action) (s : t) :
  maxWeight_ (push a s) = maxWeight_ s.
Proof.
  unfold push.
  destruct (trim_spec (mk (a :: nodes s) (int_add (totalWeight_ s) (weight a))
                         (maxWeight_ s))) as (ev & _ & _ & Hm & _).
  exact Hm.
Qed.

(** A push that fits under the cap evicts nothing. *)
Lemma push_fits (a : Action) (s : t) :
  0 <= totalWeight_ s + weight a <= maxWeight_ s ->
  totalWeight_ s + weight a <= INT_MAX ->
  push a s = mk (a :: nodes s) (totalWeight_ s + weight a) (maxWeight_ s).
Proof.
  intros H Hint. unfold push. rewrite int_add_small by exact Hint.
  rewrite trim_fits by (simpl; lia).
  simpl. now rewrite clamp0_id by lia.
Qed.

End UndoFacts.

(** * Facts about the editing branches *)

Lemma replace_loop_count (findc repc : ascii) (s : string) :
  0 <= snd (replace_loop findc repc s).
Proof.
  induction s as [|c rest IH]; simpl; [lia|].
  destruct (replace_loop findc repc rest) as [rest' count].
  simpl in IH. destruct (Ascii.eqb c findc); simpl; lia.
Qed.

Lemma size_nonneg (s : string) : 0 <= size s.
Proof. unfold size. lia. Qed.

Lemma exec_edit_action (e : Edit) (st : Session) :
  exec_edit e st = record_action (action_of e (current st)) st.
Proof.
  destruct e as [add | findc repc | idx]; simpl.
  - reflexivity.
  - unfold exec_REPLACE.
    now destruct (replace_loop findc repc (current st)).
  - reflexivity.
Qed.

Lemma action_of_prev (e : Edit) (buf : string) : prev (action_of e buf) = buf.
Proof.
  destruct e as [add | findc repc | idx]; simpl; try reflexivity.
  now destruct (replace_loop findc repc buf).
Qed.

Lemma size_append (s1 s2 : string) :
  size (String.append s1 s2) = size s1 + size s2.
Proof.
  unfold size. induction s1 as [|c s1 IH]; simpl String.length; [lia|].
  simpl String.append. simpl String.length. lia.
Qed.

Lemma replace_loop_count_le (findc repc : ascii) (s : string) :
  snd (replace_loop findc repc s) <= size s.
Proof.
  unfold size. induction s as [|c rest IH]; simpl replace_loop; [simpl; lia|].
  destruct (replace_loop findc repc rest) as [rest' count].
  cbn [snd] in IH. simpl String.length.
  destruct (Ascii.eqb c findc); cbn [snd]; lia.
Qed.

(** While the texts are shorter than 2^31 the casts change nothing and a
    weight is at most the length of one of the two texts. *)
Lemma action_of_weight (e : Edit) (buf : string) :
  size buf <= INT_MAX -> size (next (action_of e buf)) <= INT_MAX ->
  0 <= weight (action_of e buf)
    <= Z.max (size buf) (size (next (action_of e buf))).
Proof.
  pose proof (size_nonneg buf) as H0.
  destruct e as [add | findc repc | idx]; cbn [action_of]; intros Hb Hn.
  - cbn [next weight] in *. rewrite size_append in *.
    pose proof (size_nonneg add).
    rewrite to_int_small by (unfold INT_MIN; lia). lia.
  - pose proof (replace_loop_count findc repc buf) as H1.
    pose proof (replace_loop_count_le findc repc buf) as H2.
    destruct (replace_loop findc repc buf); cbn [snd weight] in *. lia.
  - cbn [weight]. rewrite to_int_small by (unfold INT_MIN; lia).
    destruct (Z.ltb_spec idx 0);
      match goal with |- context [?x >? ?y] => destruct (Z.gtb_spec x y) end;
      lia.
Qed.

Lemma exec_edit_created (e : Edit) (st : Session) :
  created (exec_edit e st) = created st.
Proof. rewrite exec_edit_action. reflexivity. Qed.

Lemma exec_edit_current (e : Edit) (st : Session) :
  current (exec_edit e st) = next (action_of e (current st)).
Proof. rewrite exec_edit_action. reflexivity. Qed.

(** ** How lines reach the branches *)

Lemma step_reads (st : Session) (line : string) (e : Edit) :
  created st = true -> reads line e ->
  step st line = Val (exec_edit e st, []).
Proof.
  intros Hc [Hne Hargs]. unfold step. rewrite Hne.
  destruct e as [add | findc repc | idx].
  - destruct Hargs as (more & ->). simpl. now rewrite Hc.
  - destruct Hargs as (a1 & a2 & more & -> & <- & <-). simpl. now rewrite Hc.
  - destruct Hargs as (a1 & more & -> & Hs). simpl. rewrite Hc, Hs. reflexivity.
Qed.

Lemma step_UNDO (st : Session) :
  created st = true -> step st "UNDO" = exec_UNDO st.
Proof. intros Hc. unfold step. simpl. now rewrite Hc. Qed.

Lemma step_REDO (st : Session) :
  created st = true -> step st "REDO" = exec_REDO st.
Proof. intros Hc. unfold step. simpl. now rewrite Hc. Qed.

Lemma run_app (l1 l2 : list string) :
  forall st,
    run st (l1 ++ l2) =
    match run st l1 with
    | (out1, Val st1) => let '(out2, r) := run st1 l2 in (out1 ++ out2, r)
    | (out1, Fault f) => (out1, Fault f)
    end.
Proof.
  induction l1 as [|line l1 IH]; intros st; simpl.
  - now destruct (run st l2).
  - destruct (step st line) as [[st' out]|f]; [|reflexivity].
    rewrite IH. destruct (run st' l1) as [out1 [st1|f]]; [|reflexivity].
    destruct (run st1 l2) as [out2 r]. now rewrite app_assoc.
Qed.

Lemma run_reads (lines : list string) (es : list Edit) :
  Forall2 reads lines es ->
  forall st, created st = true -> run st lines = ([], Val (exec_edits es st)).
Proof.
  induction 1 as [|line e lines es Hr _ IH]; intros st Hc; simpl.
  - reflexivity.
  - rewrite (step_reads st line e Hc Hr).
    unfold exec_edits in IH. rewrite IH by now rewrite exec_edit_created.
    reflexivity.
Qed.

(** * The invariants of the sessions the program reaches *)

Lemma back_app (k d : list Action) :
  forall cur origin, back cur (k ++ d) origin -> exists o, back cur k o.
Proof.
  induction k as [|a k IH]; intros cur origin H; simpl in *.
  - now exists cur.
  - destruct H as [Hn Hb]. apply IH in Hb. destruct Hb as [o Ho].
    exists o. now split.
Qed.

(** A successful UNDO, spelled out. *)
Lemma exec_UNDO_top (st : Session) (a : Action) (below : list Action) :
  WeightedUndoStack.nodes (undoStack st) = a :: below ->
  exec_UNDO st =
  Val (mkSession (prev a) (created st) (maxWeight st)
         (WeightedUndoStack.mk below
            (WeightedUndoStack.clamp0
               (WeightedUndoStack.totalWeight_ (undoStack st) - weight a))
            (WeightedUndoStack.maxWeight_ (undoStack st)))
         (a :: redoStack st), []).
Proof.
  intros H. unfold exec_UNDO, WeightedUndoStack.empty, WeightedUndoStack.pop.
  rewrite H. reflexivity.
Qed.

Lemma exec_UNDO_empty (st : Session) :
  WeightedUndoStack.nodes (undoStack st) = [] ->
  exec_UNDO st = Val (st, [msg_undo]).
Proof.
  intros H. unfold exec_UNDO, WeightedUndoStack.empty. now rewrite H.
Qed.

Lemma exec_REDO_top (st : Session) (a : Action) (below : list Action) :
  redoStack st = a :: below ->
  exec_REDO st =
  Val (mkSession (next a) (created st) (maxWeight st)
         (WeightedUndoStack.push a (undoStack st)) below, []).
Proof.
  intros H. unfold exec_REDO. rewrite H. reflexivity.
Qed.

Lemma exec_REDO_empty (st : Session) :
  redoStack st = [] -> exec_REDO st = Val (st, [msg_redo]).
Proof. intros H. unfold exec_REDO. now rewrite H. Qed.

(** What one iteration can do to the session. *)
Lemma step_args_cases (st st' : Session) (args : list string) (out : output) :
  step_args st args = Val (st', out) ->
  (st' = st /\ (out = [] \/ (created st = true /\ out = [current st]))) \/
  (out = [] /\ exists mw text, st' = exec_CREATE mw text st) \/
  (created st = true /\ out = [] /\ exists e, st' = exec_edit e st) \/
  (created st = true /\ exec_UNDO st = Val (st', out)) \/
  (created st = true /\ exec_REDO st = Val (st', out)).
Proof.
  intros H. unfold step_args, skip, exec_PRINT in H.
  destruct args as [|command operands];
    [inversion H; subst; left; split; [reflexivity | now left]|].
  destruct (String.eqb command "CREATE").
  { destruct operands as [|a1 [|a2 more]];
      try (inversion H; subst; left; split; [reflexivity | now left]).
    destruct (stoi a1) as [mw|f]; simpl in H; [|discriminate].
    inversion H; subst. right; left. split; [reflexivity|]. now exists mw, a2. }
  destruct (created st) eqn:Hc; simpl in H;
    [|inversion H; subst; left; split; [reflexivity | now left]].
  destruct (String.eqb command "APPEND").
  { destruct operands as [|add more];
      [inversion H; subst; left; split; [reflexivity | now left]|].
    inversion H; subst. right; right; left.
    repeat split. now exists (Append add). }
  destruct (String.eqb command "REPLACE").
  { destruct operands as [|a1 [|a2 more]];
      try (inversion H; subst; left; split; [reflexivity | now left]).
    inversion H; subst. right; right; left.
    repeat split. now exists (Replace (first_char a1) (first_char a2)). }
  destruct (String.eqb command "DELETE").
  { destruct operands as [|a1 more];
      [inversion H; subst; left; split; [reflexivity | now left]|].
    destruct (stoi a1) as [idx|f]; simpl in H; [|discriminate].
    inversion H; subst. right; right; left.
    repeat split. now exists (Delete idx). }
  destruct (String.eqb command "UNDO"); [right; right; right; left; now split|].
  destruct (String.eqb command "REDO"); [right; right; right; right; now split|].
  destruct (String.eqb command "PRINT"); inversion H; subst; left;
    (split; [reflexivity|]); [right; now split | now left].
Qed.

Lemma step_cases (st st' : Session) (line : string) (out : output) :
  step st line = Val (st', out) ->
  (st' = st /\ (out = [] \/ (created st = true /\ out = [current st]))) \/
  (out = [] /\ exists mw text, st' = exec_CREATE mw text st) \/
  (created st = true /\ out = [] /\ exists e, st' = exec_edit e st) \/
  (created st = true /\ exec_UNDO st = Val (st', out)) \/
  (created st = true /\ exec_REDO st = Val (st', out)).
Proof.
  unfold step. destruct (str_empty line).
  - intros H. inversion H; subst. left. split; [reflexivity | now left].
  - apply step_args_cases.
Qed.

Lemma exec_CREATE_explicit (mw : Z) (text : string) (st : Session) :
  exec_CREATE mw text st
  = mkSession text true mw (WeightedUndoStack.mk [] 0 (Z.max 0 mw)) [].
Proof.
  unfold exec_CREATE, WeightedUndoStack.setMaxWeight, WeightedUndoStack.trim.
  simpl. replace (if mw <? 0 then 0 else mw) with (Z.max 0 mw); [reflexivity|].
  destruct (Z.ltb_spec mw 0); lia.
Qed.

Lemma fits_int_spec (st : Session) :
  fits_int st = true <->
  WeightedUndoStack.maxWeight_ (undoStack st) + size (current st) <= INT_MAX.
Proof. unfold fits_int. apply Z.leb_le. Qed.

(** ** What holds whatever the sizes *)

Lemma Basic_initial : Basic initial.
Proof.
  constructor; simpl; try lia; try reflexivity; now exists EmptyString.
Qed.

Lemma Basic_step (st st' : Session) (line : string) (out : output) :
  Basic st -> step st line = Val (st', out) -> Basic st'.
Proof.
  intros [[o Hb] [f Hf] Ht Hcap Hfresh] H.
  destruct (step_cases st st' line out H)
    as [[-> _] | [(_ & mw & text & ->) | [(Hc & _ & e & ->) |
        [[Hc HU] | [Hc HR]]]]].
  - constructor; auto; [now exists o | now exists f].
  - rewrite exec_CREATE_explicit.
    constructor; simpl; try lia; try reflexivity; try discriminate;
      now exists text.
  - rewrite exec_edit_action.
    set (a := action_of e (current st)).
    constructor; simpl.
    + destruct (push_nodes a (undoStack st)) as [ev Hev].
      apply back_app with ev o. rewrite <- Hev. simpl.
      split; [reflexivity|]. unfold a. now rewrite action_of_prev.
    + now exists (next a).
    + apply push_total_nonneg.
    + now rewrite push_maxWeight.
    + rewrite Hc. discriminate.
  - destruct (WeightedUndoStack.nodes (undoStack st)) as [|a below] eqn:E.
    + rewrite (exec_UNDO_empty st E) in HU. inversion HU; subst.
      constructor; auto; [exists o; now rewrite E | now exists f].
    + rewrite (exec_UNDO_top st a below E) in HU. inversion HU; subst; clear HU.
      simpl in Hb. destruct Hb as [Hn Hb].
      constructor; simpl.
      * now exists o.
      * exists f. split; [reflexivity | now rewrite Hn].
      * apply clamp0_nonneg.
      * exact Hcap.
      * rewrite Hc. discriminate.
  - destruct (redoStack st) as [|a r] eqn:E.
    + rewrite (exec_REDO_empty st E) in HR. inversion HR; subst.
      constructor; auto; [now exists o | exists f; now rewrite E].
    + rewrite (exec_REDO_top st a r E) in HR. inversion HR; subst; clear HR.
      simpl in Hf. destruct Hf as [Hp Hf].
      constructor; simpl.
      * destruct (push_nodes a (undoStack st)) as [ev Hev].
        apply back_app with ev o. rewrite <- Hev. simpl.
        split; [reflexivity | now rewrite Hp].
      * now exists f.
      * apply push_total_nonneg.
      * now rewrite push_maxWeight.
      * rewrite Hc. discriminate.
Qed.

Lemma Basic_run (lines : list string) :
  forall st st' out, Basic st -> run st lines = (out, Val st') -> Basic st'.
Proof.
  induction lines as [|line rest IH]; intros st st' out HB H; simpl in H.
  - now inversion H; subst.
  - destruct (step st line) as [[st1 out1]|f] eqn:E; [|discriminate].
    destruct (run st1 rest) as [out2 r] eqn:E2.
    inversion H; subst. apply (IH st1 st' out2); [|exact E2].
    now apply Basic_step with st line out1.
Qed.

Lemma reachable_Basic (st : Session) : reachable st -> Basic st.
Proof.
  intros (lines & out & H).
  apply (Basic_run lines initial st out Basic_initial H).
Qed.

(** ** What holds while the sizes fit in an [int] *)

Lemma Inv_initial : Inv initial.
Proof.
  constructor; simpl.
  - repeat split; simpl; try lia. constructor.
  - lia.
  - constructor.
  - now exists EmptyString.
  - now exists EmptyString.
Qed.

Lemma Budget_initial : Budget initial.
Proof. constructor; simpl; [lia | reflexivity | reflexivity]. Qed.

Lemma Inv_CREATE (mw : Z) (text : string) (st : Session) :
  Inv (exec_CREATE mw text st).
Proof.
  destruct (setMaxWeight_WF mw (WeightedUndoStack.clear (undoStack st)))
    as [Hwf Hcap]; [reflexivity | constructor |].
  constructor; simpl.
  - exact Hwf.
  - exact Hcap.
  - constructor.
  - now exists text.
  - now exists text.
Qed.

Lemma Inv_record (a : Action) (st : Session) :
  Inv st -> prev a = current st -> 0 <= weight a ->
  WeightedUndoStack.totalWeight_ (undoStack st) + weight a <= INT_MAX ->
  Inv (record_action a st).
Proof.
  intros [Hwf Hcap Hredo [o Hb] _] Hp Ha Hfit.
  destruct (push_WF a (undoStack st) Hwf Ha Hfit) as [Hwf' Hcap'].
  constructor; simpl.
  - exact Hwf'.
  - exact Hcap'.
  - constructor.
  - destruct (push_nodes a (undoStack st)) as [ev Hev].
    apply back_app with ev o. rewrite <- Hev. simpl.
    split; [reflexivity | now rewrite Hp].
  - now exists (next a).
Qed.

(** The weight of an edit between two sessions that fit. *)
Lemma edit_weight_fits (e : Edit) (st : Session) :
  0 <= WeightedUndoStack.maxWeight_ (undoStack st) ->
  fits_int st = true -> fits_int (exec_edit e st) = true ->
  0 <= weight (action_of e (current st)) /\
  WeightedUndoStack.maxWeight_ (undoStack st)
  + weight (action_of e (current st)) <= INT_MAX.
Proof.
  intros Hm Hf Hf'. apply fits_int_spec in Hf, Hf'.
  rewrite exec_edit_action in Hf'. simpl in Hf'. rewrite push_maxWeight in Hf'.
  pose proof (size_nonneg (current st)).
  pose proof (size_nonneg (next (action_of e (current st)))).
  destruct (action_of_weight e (current st)); lia.
Qed.

Lemma Inv_edit (e : Edit) (st : Session) :
  Inv st -> fits_int st = true -> fits_int (exec_edit e st) = true ->
  Inv (exec_edit e st).
Proof.
  intros HI Hf Hf'. pose proof HI as [(_ & _ & Hm) Hcap _ _ _].
  destruct (edit_weight_fits e st Hm Hf Hf') as [Hw Hfit].
  rewrite exec_edit_action. apply Inv_record; auto using action_of_prev. lia.
Qed.

Lemma Inv_UNDO (st st' : Session) (out : output) :
  Inv st -> exec_UNDO st = Val (st', out) -> Inv st'.
Proof.
  intros HI H.
  destruct (WeightedUndoStack.nodes (undoStack st)) as [|a below] eqn:E.
  - rewrite (exec_UNDO_empty st E) in H. now inversion H; subst.
  - rewrite (exec_UNDO_top st a below E) in H. inversion H; subst; clear H.
    destruct HI as [Hwf Hcap Hredo [o Hb] [f Hf]].
    rewrite E in Hb. simpl in Hb. destruct Hb as [Hn Hb].
    destruct (pop_WF a (undoStack st) _ Hwf
                ltac:(unfold WeightedUndoStack.pop; rewrite E; reflexivity))
      as (Hwf' & _ & Ht & _).
    simpl in Ht.
    destruct Hwf as (_ & Hnn & _). rewrite E in Hnn.
    inversion Hnn as [|? ? Ha _]; subst.
    constructor; simpl.
    + exact Hwf'.
    + rewrite Ht. lia.
    + now constructor.
    + now exists o.
    + exists f. split; [reflexivity | now rewrite Hn].
Qed.

(** A REDO in a session that keeps the invariants pushes without evicting. *)
Lemma redo_keeps_all (st : Session) (a : Action) (r : list Action) :
  Inv st -> Budget st ->
  WeightedUndoStack.maxWeight_ (undoStack st) <= INT_MAX ->
  redoStack st = a :: r ->
  prev a = current st /\
  exec_REDO st
  = Val (mkSession (next a) (created st) (maxWeight st)
           (WeightedUndoStack.mk
              (a :: WeightedUndoStack.nodes (undoStack st))
              (WeightedUndoStack.totalWeight_ (undoStack st) + weight a)
              (WeightedUndoStack.maxWeight_ (undoStack st))) r, []).
Proof.
  intros [(Ht & Hnn & Hm) _ Hredo _ [f Hf]] [Hfit _ _] Hfi E.
  rewrite E in Hredo, Hfit, Hf. simpl in Hfit, Hf.
  inversion Hredo as [|? ? Ha Hr]; subst.
  pose proof (sum_weights_nonneg _ Hr). pose proof (sum_weights_nonneg _ Hnn).
  split; [tauto|].
  rewrite (exec_REDO_top st a r E). now rewrite push_fits by lia.
Qed.

Lemma fits_int_cap (st : Session) :
  fits_int st = true -> WeightedUndoStack.maxWeight_ (undoStack st) <= INT_MAX.
Proof.
  intros H. apply fits_int_spec in H. pose proof (size_nonneg (current st)). lia.
Qed.

(** The invariants after a REDO that moves a node. *)
Lemma Good_REDO (st st' : Session) (a : Action) (r : list Action)
    (out : output) :
  Inv st -> Budget st ->
  WeightedUndoStack.maxWeight_ (undoStack st) <= INT_MAX ->
  created st = true -> redoStack st = a :: r ->
  exec_REDO st = Val (st', out) ->
  Inv st' /\ Budget st' /\
  WeightedUndoStack.maxWeight_ (undoStack st')
  = WeightedUndoStack.maxWeight_ (undoStack st).
Proof.
  intros HI HB Hint Hc E HR.
  destruct (redo_keeps_all st a r HI HB Hint E) as [Hp HR'].
  rewrite HR' in HR. inversion HR; subst; clear HR.
  destruct HB as [Hfit Hcap Hfresh].
  destruct HI as [(Ht & Hnn & Hm) Hle Hredo [o Hb] [f Hfo]].
  rewrite E in Hredo, Hfit, Hfo. simpl in Hfit, Hfo.
  inversion Hredo as [|? ? Ha Hr]; subst.
  pose proof (sum_weights_nonneg _ Hr).
  split; [|split; [|reflexivity]]; constructor; simpl.
  - split; simpl; [rewrite Ht; ring|]. split; [now constructor | exact Hm].
  - lia.
  - exact Hr.
  - exists o. split; [reflexivity | now rewrite Hp].
  - exists f. tauto.
  - lia.
  - exact Hcap.
  - rewrite Hc. discriminate.
Qed.

Lemma Good_step (st st' : Session) (line : string) (out : output) :
  Inv st -> Budget st -> fits_int st = true ->
  step st line = Val (st', out) -> fits_int st' = true ->
  Inv st' /\ Budget st'.
Proof.
  intros HI HB Hf H Hf'. pose proof HB as [Hfit Hcap Hfresh].
  destruct (step_cases st st' line out H)
    as [[-> _] | [(_ & mw & text & ->) | [(Hc & _ & e & ->) |
        [[Hc HU] | [Hc HR]]]]].
  - now split.
  - split; [apply Inv_CREATE|]. rewrite exec_CREATE_explicit.
    constructor; simpl; [lia | reflexivity | discriminate].
  - pose proof (Inv_edit e st HI Hf Hf') as HI'. split; [exact HI'|].
    destruct HI' as [_ Hcap' _ _ _].
    rewrite exec_edit_action in *. constructor; simpl in *.
    + lia.
    + now rewrite push_maxWeight.
    + rewrite Hc. discriminate.
  - split; [now apply Inv_UNDO with st out|].
    destruct (WeightedUndoStack.nodes (undoStack st)) as [|a below] eqn:E.
    + rewrite (exec_UNDO_empty st E) in HU. now inversion HU; subst.
    + rewrite (exec_UNDO_top st a below E) in HU. inversion HU; subst; clear HU.
      destruct HI as [(Ht & Hnn & Hm) _ _ _ _]. rewrite E in Ht, Hnn.
      simpl in Ht. inversion Hnn as [|? ? Ha Hbelow]; subst.
      pose proof (sum_weights_nonneg _ Hbelow).
      constructor; simpl.
      * rewrite clamp0_id by lia. lia.
      * exact Hcap.
      * rewrite Hc. discriminate.
  - destruct (redoStack st) as [|a r] eqn:E.
    + rewrite (exec_REDO_empty st E) in HR. now inversion HR; subst.
    + destruct (Good_REDO st st' a r out HI HB (fits_int_cap st Hf) Hc E HR)
        as (HI' & HB' & _).
      now split.
Qed.

Lemma Good_run (lines : list string) :
  forall st st' out,
    Inv st -> Budget st -> fits_int st = true ->
    fits_run st lines = true -> run st lines = (out, Val st') ->
    Inv st' /\ Budget st' /\ fits_int st' = true.
Proof.
  induction lines as [|line rest IH]; intros st st' out HI HB Hf Hfr H;
    simpl in H, Hfr.
  - inversion H; subst. auto.
  - destruct (step st line) as [[st1 out1]|f] eqn:E; [|discriminate].
    destruct (run st1 rest) as [out2 r] eqn:E2.
    apply andb_true_iff in Hfr. destruct Hfr as [Hf1 Hfr].
    inversion H; subst.
    destruct (Good_step st st1 line out1 HI HB Hf E Hf1) as [HI1 HB1].
    apply (IH st1 st' out2); auto.
Qed.

Lemma reachable_fits_Good (st : Session) :
  reachable_fits st -> Inv st /\ Budget st /\ fits_int st = true.
Proof.
  intros (lines & out & Hfr & H).
  apply (Good_run lines initial st out Inv_initial Budget_initial eq_refl Hfr H).
Qed.

Lemma reachable_fits_reachable (st : Session) :
  reachable_fits st -> reachable st.
Proof. intros (lines & out & _ & H). now exists lines, out. Qed.

Lemma step_creates (st : Session) (line : string) (cap : Z) (text : string) :
  creates line cap text -> step st line = Val (exec_CREATE cap text st, []).
Proof.
  intros (Hne & a1 & more & Hargs & Hs). unfold step.
  rewrite Hne, Hargs. simpl. now rewrite Hs.
Qed.

Lemma run_cons_Val (st st1 : Session) (line : string) (rest : list string) :
  step st line = Val (st1, []) -> run st (line :: rest) = run st1 rest.
Proof. intros H. simpl. rewrite H. now destruct (run st1 rest). Qed.

(** * Undoing a whole history *)

(** When the undo nodes lead back from the buffer to [origin], one UNDO per
    node succeeds and leaves [origin] in the buffer. *)
Lemma undo_all (l : list Action) :
  forall st origin,
    created st = true ->
    WeightedUndoStack.nodes (undoStack st) = l ->
    back (current st) l origin ->
    exists st',
      run st (undo_lines (List.length l)) = ([], Val st') /\ current st' = origin.
Proof.
  induction l as [|a below IH]; intros st origin Hc Hn Hb.
  - simpl in *. now exists st.
  - destruct Hb as [_ Hb].
    pose proof (exec_UNDO_top st a below Hn) as HU.
    rewrite <- (step_UNDO st Hc) in HU.
    change (undo_lines (List.length (a :: below)))
      with ("UNDO" :: undo_lines (List.length below)).
    rewrite (run_cons_Val _ _ _ _ HU).
    apply IH; simpl; auto.
Qed.

(** As long as no node is evicted, the undo nodes lead back to the text the
    history started from; [base] counts the nodes at the start. *)
Lemma edits_keep_origin (es : list Edit) :
  forall st base origin,
    (List.length (WeightedUndoStack.nodes (undoStack st)) <= base)%nat ->
    (List.length (WeightedUndoStack.nodes (undoStack st)) = base ->
     back (current st) (WeightedUndoStack.nodes (undoStack st)) origin) ->
    let st' := exec_edits es st in
    (List.length (WeightedUndoStack.nodes (undoStack st')) <= base + List.length es)%nat /\
    (List.length (WeightedUndoStack.nodes (undoStack st')) = (base + List.length es)%nat ->
     back (current st') (WeightedUndoStack.nodes (undoStack st')) origin).
Proof.
  induction es as [|e es IH]; intros st base origin Hle Hb; simpl.
  - rewrite Nat.add_0_r. now split.
  - specialize (IH (exec_edit e st) (S base) origin).
    rewrite exec_edit_action in *.
    set (a := action_of e (current st)) in *.
    destruct (push_nodes a (undoStack st)) as [ev Hev].
    apply (f_equal (@List.length Action)) in Hev as Hlen.
    rewrite length_app in Hlen. simpl in Hlen.
    replace (base + S (List.length es))%nat with (S base + List.length es)%nat by lia.
    apply IH; simpl.
    + lia.
    + intros Hfull.
      assert (Hnil : ev = []) by (destruct ev; [reflexivity | simpl in Hlen; lia]).
      subst ev. rewrite app_nil_r in Hev. rewrite <- Hev. simpl.
      split; [reflexivity|].
      unfold a at 1. rewrite action_of_prev. apply Hb. lia.
Qed.

Lemma exec_edits_created (es : list Edit) :
  forall st, created (exec_edits es st) = created st.
Proof.
  induction es as [|e es IH]; intros st; simpl; [reflexivity|].
  unfold exec_edits in IH. now rewrite IH, exec_edit_created.
Qed.

Lemma Forall2_reads_length (lines : list string) (es : list Edit) :
  Forall2 reads lines es -> List.length lines = List.length es.
Proof. induction 1; simpl; congruence. Qed.

Lemma run_create_edits (st0 : Session) (cline : string) (cap : Z)
    (text : string) (lines : list string) (es : list Edit) :
  creates cline cap text -> Forall2 reads lines es ->
  run st0 (cline :: lines) =
  ([], Val (exec_edits es (exec_CREATE cap text st0))).
Proof.
  intros Hc Hr. rewrite (run_cons_Val _ _ _ _ (step_creates st0 _ _ _ Hc)).
  now apply run_reads.
Qed.

(** From a session whose Undo List is empty: if the edits leave one node
    each, one UNDO per edit leads back to the text the edits started from. *)
Lemma undo_all_exec_edits (es : list Edit) (sC : Session) :
  created sC = true ->
  WeightedUndoStack.nodes (undoStack sC) = [] ->
  List.length (WeightedUndoStack.nodes (undoStack (exec_edits es sC)))
  = List.length es ->
  exists st2,
    run (exec_edits es sC) (undo_lines (List.length es)) = ([], Val st2) /\
    current st2 = current sC.
Proof.
  intros Hc Hnil Hlen.
  destruct (edits_keep_origin es sC 0 (current sC)) as [_ Hback].
  - rewrite Hnil. simpl. lia.
  - intros _. rewrite Hnil. reflexivity.
  - specialize (Hback Hlen). rewrite <- Hlen.
    apply undo_all; [now rewrite exec_edits_created | reflexivity | exact Hback].
Qed.

Lemma exec_edits_maxWeight (es : list Edit) :
  forall st,
    WeightedUndoStack.maxWeight_ (undoStack (exec_edits es st))
    = WeightedUndoStack.maxWeight_ (undoStack st).
Proof.
  induction es as [|e es IH]; intros st; simpl; [reflexivity|].
  unfold exec_edits in IH. rewrite IH, exec_edit_action. simpl.
  apply push_maxWeight.
Qed.

Lemma edits_weight_nonneg (es : list Edit) :
  forall buf, all_nonneg_weight buf es -> 0 <= edits_weight buf es.
Proof.
  induction es as [|e es IH]; intros buf H; simpl; [lia|].
  destruct H as [Hw H]. specialize (IH _ H). lia.
Qed.

(** Edits of non-negative weight whose cumulative weight fits under the cap
    (itself an [int]) are all retained. *)
Lemma edits_within_cap_keep_all (es : list Edit) :
  forall st,
    0 <= WeightedUndoStack.totalWeight_ (undoStack st) ->
    WeightedUndoStack.maxWeight_ (undoStack st) <= INT_MAX ->
    all_nonneg_weight (current st) es ->
    WeightedUndoStack.totalWeight_ (undoStack st) + edits_weight (current st) es
    <= WeightedUndoStack.maxWeight_ (undoStack st) ->
    List.length (WeightedUndoStack.nodes (undoStack (exec_edits es st)))
    = (List.length es + List.length (WeightedUndoStack.nodes (undoStack st)))%nat.
Proof.
  induction es as [|e es IH]; intros st H0 Hint Hnn Hfit; simpl; [reflexivity|].
  simpl in Hfit. destruct Hnn as [Hw Hnn].
  pose proof (edits_weight_nonneg es _ Hnn) as Hrest.
  assert (Hpush : undoStack (exec_edit e st)
                  = WeightedUndoStack.mk
                      (action_of e (current st)
                       :: WeightedUndoStack.nodes (undoStack st))
                      (WeightedUndoStack.totalWeight_ (undoStack st)
                       + weight (action_of e (current st)))
                      (WeightedUndoStack.maxWeight_ (undoStack st))).
  { rewrite exec_edit_action. simpl. apply push_fits; lia. }
  unfold exec_edits in IH. rewrite IH.
  - rewrite Hpush. simpl. lia.
  - rewrite Hpush. simpl. lia.
  - rewrite Hpush. simpl. lia.
  - now rewrite exec_edit_current.
  - rewrite Hpush, exec_edit_current. simpl. lia.
Qed.

(** In particular after a CREATE: edits of non-negative weight and of
    cumulative weight at most the capacity leave one node each. *)
Lemma edits_within_capacity (cap : Z) (text : string) (es : list Edit)
    (st0 : Session) :
  cap <= INT_MAX ->
  all_nonneg_weight text es ->
  edits_weight text es <= cap ->
  List.length (WeightedUndoStack.nodes
                 (undoStack (exec_edits es (exec_CREATE cap text st0))))
  = List.length es.
Proof.
  intros Hint Hnn Hfit. pose proof (edits_weight_nonneg es text Hnn) as H0.
  rewrite exec_CREATE_explicit.
  rewrite edits_within_cap_keep_all; simpl; try lia; exact Hnn.
Qed.

(** * The scenarios of the specification, run on the model *)

Example scenario_append_undo_redo :
  fst (main ["CREATE 100 abc"; "APPEND de"; "PRINT"; "UNDO"; "PRINT";
             "REDO"; "PRINT"])
  = ["abcde"; "abc"; "abcde"].
Proof. reflexivity. Qed.

Example scenario_overweight_append :
  fst (main ["CREATE 2 abc"; "APPEND xyz"; "UNDO"; "PRINT"])
  = [msg_undo; "abcxyz"].
Proof. reflexivity. Qed.

Example scenario_replace_delete :
  fst (main ["CREATE 10 aaa"; "REPLACE a b"; "PRINT"; "DELETE 1"; "PRINT";
             "UNDO"; "PRINT"; "UNDO"; "PRINT"; "UNDO"; "PRINT"])
  = ["bbb"; "b"; "bbb"; "aaa"; msg_undo; "aaa"].
Proof. reflexivity. Qed.

Example scenario_delete_beyond_end :
  fst (main ["CREATE 10 aaa"; "DELETE 99"; "PRINT"; "UNDO"; "PRINT"])
  = ["aaa"; "aaa"].
Proof. reflexivity. Qed.

Example scenario_quoted_argument :
  get_args (String.append "APPEND "
              (String dquote (String.append "a b" (String dquote EmptyString))))
  = ["APPEND"; "a b"].
Proof. reflexivity. Qed.

Example scenario_capacity_zero_undo_redo :
  fst (main ["CREATE 0 abc"; "DELETE 7"; "UNDO"; "REDO"; "UNDO"; "PRINT"])
  = ["abc"].
Proof. reflexivity. Qed.

(** * An input that overflows the cached total *)

(** The tokenizer on a run of characters that are neither quotes nor
    separating spaces. *)

Lemma append_empty_r (s : string) : String.append s EmptyString = s.
Proof. induction s as [|c s IH]; simpl; [reflexivity | now rewrite IH]. Qed.

Lemma append_assoc (s1 s2 s3 : string) :
  String.append (String.append s1 s2) s3
  = String.append s1 (String.append s2 s3).
Proof. induction s1 as [|c s1 IH]; simpl; [reflexivity | now rewrite IH]. Qed.

Lemma push_back_append (cur : string) (c : ascii) (t : string) :
  String.append (push_back cur c) t = String.append cur (String c t).
Proof. unfold push_back. now rewrite append_assoc. Qed.

(** Characters that are neither a quote nor (outside quotes) a space are
    appended to the token being read. *)
Lemma get_args_loop_run (t : string) :
  forall rest in_quotes cur args,
    occurs dquote t = false ->
    in_quotes = true \/ occurs space t = false ->
    get_args_loop (String.append t rest) in_quotes cur args
    = get_args_loop rest in_quotes (String.append cur t) args.
Proof.
  induction t as [|c t IH]; intros rest q cur args Hq Hs; simpl.
  - now rewrite append_empty_r.
  - simpl in Hq. apply orb_false_iff in Hq. destruct Hq as [Hc Hq].
    assert (Hsp : Ascii.eqb c space && negb q = false).
    { destruct Hs as [-> | Hs]; [apply andb_false_r|].
      simpl in Hs. apply orb_false_iff in Hs. destruct Hs as [-> _].
      reflexivity. }
    rewrite Hsp, Hc, IH.
    + now rewrite push_back_append.
    + exact Hq.
    + destruct Hs as [Hs | Hs]; [now left | right].
      simpl in Hs. apply orb_false_iff in Hs. tauto.
Qed.


Lemma size_letters (n : nat) (c : ascii) : size (letters n c) = Z.of_nat n.
Proof.
  unfold size. induction n as [|n IH]; simpl String.length; [reflexivity|].
  lia.
Qed.










(** * The claims *)

(** ** C1: undoing as many times as there were edits *)

(** C1, as stated, fails: with capacity 2 the single APPEND of weight 3 is
    evicted at once, the UNDO that follows reports an error, and the buffer
    is not the text given to CREATE. *)
Lemma C1_counterexample :
  exists st,
    main ["CREATE 2 abc"; "APPEND xyz"; "UNDO"] = ([msg_undo], Val st) /\
    current st = "abcxyz" /\ current st <> "abc".
Proof.
  eexists. split; [reflexivity|]. split; [reflexivity | discriminate].
Qed.

(** C1 (amended): for every session and every sequence of
    Append/Replace/Delete lines executed after a CREATE, if none of their
    actions was evicted by the weight cap (the Undo List holds one node per
    line), then the same number of UNDO lines all succeed, silently, and
    return the buffer to the text given to CREATE. *)
Theorem C1_undo_all_restores_initial_text :
  forall st0 cline cap text lines es out st1,
    creates cline cap text ->
    Forall2 reads lines es ->
    run st0 (cline :: lines) = (out, Val st1) ->
    List.length (WeightedUndoStack.nodes (undoStack st1)) = List.length lines ->
    exists st2,
      run st1 (undo_lines (List.length lines)) = ([], Val st2) /\
      current st2 = text.
Proof.
  intros st0 cline cap text lines es out st1 Hc Hr Hrun Hlen.
  rewrite (run_create_edits st0 cline cap text lines es Hc Hr) in Hrun.
  inversion Hrun; subst out st1; clear Hrun.
  rewrite (Forall2_reads_length _ _ Hr) in *.
  destruct (undo_all_exec_edits es (exec_CREATE cap text st0))
    as (st2 & Hundo & Hcur); [reflexivity | reflexivity | exact Hlen |].
  exists st2. split; [exact Hundo | exact Hcur].
Qed.

Lemma C1_witness :
  exists st2,
    run (exec_DELETE 1 (exec_APPEND "de" (exec_CREATE 10 "abc" initial)))
        (undo_lines 2) = ([], Val st2) /\
    current st2 = "abc".
Proof.
  apply (C1_undo_all_restores_initial_text initial "CREATE 10 abc" 10 "abc"
           ["APPEND de"; "DELETE 1"] [Append "de"; Delete 1] []).
  - split; [reflexivity|]. exists "10", []. split; reflexivity.
  - constructor; [|constructor; [|constructor]].
    + split; [reflexivity|]. exists []. reflexivity.
    + split; [reflexivity|]. exists "1", []. split; reflexivity.
  - reflexivity.
  - reflexivity.
Defined.

(** ** C2: malformed lines *)

(** C2, as stated, fails: a DELETE whose index is not a number is not
    skipped; [std::stoi] throws [std::invalid_argument], nothing catches it
    and the program ends there.  The same happens for CREATE. *)
Lemma C2_counterexample :
  main ["CREATE 10 aaa"; "DELETE x"; "PRINT"] = ([], Fault invalid_argument) /\
  step (exec_CREATE 10 "aaa" initial) "DELETE x" = Fault invalid_argument /\
  step initial "CREATE ten aaa" = Fault invalid_argument.
Proof. repeat split. Qed.

(** C2 (amended): a line with fewer operands than its command reads, and a
    line whose first token is not a command, is skipped: no output, the
    session (buffer, both lists, cap) unchanged.  Operands beyond those the
    command reads are ignored and the command runs.  A token that
    [std::stoi] rejects, where CREATE (in any state) or DELETE (in an Active
    session) reads its integer, ends the program with that exception. *)
Theorem C2_malformed_lines :
  (forall st line command operands n,
     get_args line = command :: operands ->
     operands_needed command = Some n ->
     (List.length operands < n)%nat ->
     step st line = Val (st, [])) /\
  (forall st line command operands,
     get_args line = command :: operands ->
     operands_needed command = None ->
     step st line = Val (st, [])) /\
  (forall st command operands extra n,
     operands_needed command = Some n ->
     List.length operands = n ->
     step_args st (command :: operands ++ extra)
     = step_args st (command :: operands)) /\
  (forall st line a1 a2 more f,
     get_args line = "CREATE" :: a1 :: a2 :: more ->
     stoi a1 = Fault f ->
     step st line = Fault f) /\
  (forall st line a1 more f,
     created st = true ->
     get_args line = "DELETE" :: a1 :: more ->
     stoi a1 = Fault f ->
     step st line = Fault f).
Proof.
  assert (Hne : forall line tok toks,
             get_args line = tok :: toks -> str_empty line = false).
  { intros [|c line] tok toks H; [discriminate | reflexivity]. }
  split; [|split; [|split; [|split]]].
  - intros st line command operands n Hargs Hneed Hlen.
    unfold step. rewrite (Hne _ _ _ Hargs), Hargs.
    unfold step_args, operands_needed, skip in *.
    repeat match type of Hneed with
           | context [String.eqb command ?k] => destruct (String.eqb command k)
           end;
      inversion Hneed; subst n;
      destruct operands as [|a1 [|a2 more]]; simpl in Hlen; try lia;
      destruct (negb (created st)); reflexivity.
  - intros st line command operands Hargs Hneed.
    unfold step. rewrite (Hne _ _ _ Hargs), Hargs.
    unfold step_args, operands_needed, skip in *.
    repeat match type of Hneed with
           | context [String.eqb command ?k] => destruct (String.eqb command k)
           end;
      try discriminate.
    destruct (negb (created st)); reflexivity.
  - intros st command operands extra n Hneed Hlen.
    unfold step_args, operands_needed in *.
    repeat match type of Hneed with
           | context [String.eqb command ?k] => destruct (String.eqb command k)
           end;
      inversion Hneed as [Hn]; rewrite <- Hn in Hlen;
      destruct operands as [|a1 [|a2 [|a3 more]]]; simpl in Hlen;
      try discriminate; try reflexivity;
      destruct (negb (created st)); try reflexivity;
      destruct extra; reflexivity.
  - intros st line a1 a2 more f Hargs Hs.
    unfold step. rewrite (Hne _ _ _ Hargs), Hargs. simpl. now rewrite Hs.
  - intros st line a1 more f Hc Hargs Hs.
    unfold step. rewrite (Hne _ _ _ Hargs), Hargs. simpl. now rewrite Hc, Hs.
Qed.

Lemma C2_witness :
  let st := exec_APPEND "de" (exec_CREATE 10 "abc" initial) in
  step st "REPLACE a" = Val (st, []) /\
  step st "SAVE now" = Val (st, []) /\
  step_args st (["APPEND"; "x"] ++ ["y"; "z"]) = step_args st ["APPEND"; "x"] /\
  step st "CREATE 99999999999 abc" = Fault out_of_range /\
  step st "DELETE -" = Fault invalid_argument.
Proof.
  destruct C2_malformed_lines as (Hfew & Hunknown & Hextra & Hcreate & Hdelete).
  intros st. split; [|split; [|split; [|split]]].
  - apply (Hfew st "REPLACE a" "REPLACE" ["a"] 2%nat);
      [reflexivity | reflexivity | simpl; lia].
  - apply (Hunknown st "SAVE now" "SAVE" ["now"]); reflexivity.
  - apply (Hextra st "APPEND" ["x"] ["y"; "z"] 1%nat); reflexivity.
  - apply (Hcreate st "CREATE 99999999999 abc" "99999999999" "abc" []);
      reflexivity.
  - apply (Hdelete st "DELETE -" "-" []); reflexivity.
Defined.

(** ** C3: pop *)

(** C3, as stated, fails: neither [pop] tests for the empty list, so on an
    empty list there is no error result; the model's outcome is the null
    pointer dereference, which is not a defined error. *)
Lemma C3_counterexample :
  ~ (exists f, WeightedUndoStack.pop WeightedUndoStack.init = Fault f /\
               defined_error f = true) /\
  ~ (exists f, RedoStack.pop RedoStack.init = Fault f /\
               defined_error f = true).
Proof.
  split; intros (f & H & Hd); inversion H; subst f; discriminate.
Qed.

(** C3 (amended): [pop] on an empty Undo List or Redo List dereferences the
    null [top_] / [head_] (no error result is produced; callers must test
    [empty] first).  On a non-empty list [pop] removes and returns the newest
    node's Action; the Undo List's [totalWeight_] is decreased by that
    Action's weight and clamped to be non-negative, its cap is unchanged. *)
Theorem C3_pop :
  (forall total maxw,
     WeightedUndoStack.pop (WeightedUndoStack.mk [] total maxw)
     = Fault null_dereference) /\
  RedoStack.pop [] = Fault null_dereference /\
  defined_error null_dereference = false /\
  (forall a below total maxw,
     WeightedUndoStack.pop (WeightedUndoStack.mk (a :: below) total maxw)
     = Val (a, WeightedUndoStack.mk below (Z.max 0 (total - weight a)) maxw)) /\
  (forall a below, RedoStack.pop (a :: below) = Val (a, below)).
Proof.
  repeat split.
  intros a below total maxw. unfold WeightedUndoStack.pop. simpl.
  now rewrite clamp0_max.
Qed.

(** ** C4: trimming *)

Lemma stack_eq (s : WeightedUndoStack.t) (l : list Action) (total maxw : Z) :
  WeightedUndoStack.nodes s = l ->
  WeightedUndoStack.totalWeight_ s = total ->
  WeightedUndoStack.maxWeight_ s = maxw ->
  s = WeightedUndoStack.mk l total maxw.
Proof. intros <- <- <-. now destruct s. Qed.

(** An action heavier than the cap does not survive its own push, when the
    sum does not wrap. *)
Lemma push_overweight (a : Action) (s : WeightedUndoStack.t) :
  WF s -> weight a > WeightedUndoStack.maxWeight_ s ->
  WeightedUndoStack.totalWeight_ s + weight a <= INT_MAX ->
  WeightedUndoStack.push a s
  = WeightedUndoStack.mk [] 0 (WeightedUndoStack.maxWeight_ s).
Proof.
  intros (Ht & Hnn & Hm) Hw Hint. unfold WeightedUndoStack.push.
  rewrite int_add_small by exact Hint.
  set (s0 := WeightedUndoStack.mk (a :: WeightedUndoStack.nodes s)
               (WeightedUndoStack.totalWeight_ s + weight a)
               (WeightedUndoStack.maxWeight_ s)).
  destruct (trim_spec s0) as (ev & Hn & Htot & Hmax & Hstop).
  simpl in Hn, Htot, Hmax, Hstop.
  assert (Hnil : WeightedUndoStack.nodes (WeightedUndoStack.trim s0) = []).
  { destruct Hstop as [H | Hle]; [exact H|].
    destruct (WeightedUndoStack.nodes (WeightedUndoStack.trim s0))
      as [|a' k]; [reflexivity|].
    simpl in Hn. inversion Hn as [[Ha Hk]]. exfalso.
    rewrite Hk in Ht, Hnn. rewrite sum_weights_app in Ht.
    pose proof (sum_weights_nonneg _ (nonneg_app_l _ _ Hnn)). lia. }
  apply stack_eq; [exact Hnil | | exact Hmax].
  rewrite Hnil in Hn. simpl in Hn. subst ev. rewrite Htot. simpl.
  rewrite Ht. replace (_ - _) with 0 by ring. reflexivity.
Qed.

(** C4: [push] adds the node, adds the weight to the [int] total and then
    trims; [setMaxWeight] sets the cap to [max mw 0] and then trims.
    Trimming removes the oldest node and subtracts its weight while the list
    is not empty and the total exceeds the cap, and otherwise stops.  In
    particular an action whose weight exceeds the cap, pushed as the sole
    entry, is evicted by its own push: the Undo List is left empty, and in a
    session the UNDO that follows finds nothing to undo. *)
Theorem C4_trim_evicts_oldest :
  (forall a s,
     WeightedUndoStack.push a s
     = WeightedUndoStack.trim
         (WeightedUndoStack.mk (a :: WeightedUndoStack.nodes s)
            (int_add (WeightedUndoStack.totalWeight_ s) (weight a))
            (WeightedUndoStack.maxWeight_ s))) /\
  (forall mw s,
     WeightedUndoStack.setMaxWeight mw s
     = WeightedUndoStack.trim
         (WeightedUndoStack.mk (WeightedUndoStack.nodes s)
            (WeightedUndoStack.totalWeight_ s) (Z.max mw 0))) /\
  (forall newer oldest total maxw,
     total > maxw ->
     WeightedUndoStack.trim (WeightedUndoStack.mk (newer ++ [oldest]) total maxw)
     = WeightedUndoStack.trim
         (WeightedUndoStack.mk newer (total - weight oldest) maxw)) /\
  (forall l total maxw,
     l = [] \/ total <= maxw ->
     WeightedUndoStack.trim (WeightedUndoStack.mk l total maxw)
     = WeightedUndoStack.mk l (Z.max 0 total) maxw) /\
  (forall a maxw,
     maxw < weight a <= INT_MAX ->
     WeightedUndoStack.push a (WeightedUndoStack.mk [] 0 maxw)
     = WeightedUndoStack.mk [] 0 maxw) /\
  (forall st add,
     created st = true ->
     WeightedUndoStack.nodes (undoStack st) = [] ->
     WeightedUndoStack.totalWeight_ (undoStack st) = 0 ->
     WeightedUndoStack.maxWeight_ (undoStack st) < size add <= INT_MAX ->
     let st' := exec_APPEND add st in
     WeightedUndoStack.nodes (undoStack st') = [] /\
     step st' "UNDO" = Val (st', [msg_undo])).
Proof.
  assert (Hsole : forall a maxw,
             maxw < weight a <= INT_MAX ->
             WeightedUndoStack.push a (WeightedUndoStack.mk [] 0 maxw)
             = WeightedUndoStack.mk [] 0 maxw).
  { intros a maxw Hgt. unfold WeightedUndoStack.push. simpl.
    rewrite int_add_small by (simpl; lia).
    unfold WeightedUndoStack.trim. simpl.
    destruct (Z.gtb_spec (weight a) maxw); [|lia].
    replace (weight a - weight a) with 0 by ring. reflexivity. }
  split; [|split; [|split; [|split; [|split]]]].
  - reflexivity.
  - intros mw s. unfold WeightedUndoStack.setMaxWeight.
    replace (if mw <? 0 then 0 else mw) with (Z.max mw 0); [reflexivity|].
    destruct (Z.ltb_spec mw 0); lia.
  - intros newer oldest total maxw Hgt. unfold WeightedUndoStack.trim. simpl.
    rewrite rev_app_distr. simpl.
    destruct (Z.gtb_spec total maxw); [reflexivity | lia].
  - intros l total maxw [-> | Hle].
    + unfold WeightedUndoStack.trim. simpl. now rewrite clamp0_max.
    + rewrite trim_fits by exact Hle. simpl. now rewrite clamp0_max.
  - exact Hsole.
  - intros st add Hc Hnil Htot Hgt st'.
    pose proof (size_nonneg add) as H0.
    assert (Hn : WeightedUndoStack.nodes (undoStack st') = []).
    { unfold st', exec_APPEND, record_action. simpl.
      rewrite (stack_eq (undoStack st) [] 0 _ Hnil Htot eq_refl).
      rewrite Hsole; [reflexivity|]. simpl.
      rewrite to_int_small by (unfold INT_MIN; lia). lia. }
    split; [exact Hn|].
    rewrite step_UNDO by exact Hc. now apply exec_UNDO_empty.
Qed.

Lemma C4_witness :
  WeightedUndoStack.trim
    (WeightedUndoStack.mk ([mkAction "ab" "abc" 1] ++ [mkAction "a" "ab" 1]) 2 1)
  = WeightedUndoStack.trim (WeightedUndoStack.mk [mkAction "ab" "abc" 1] (2 - 1) 1) /\
  WeightedUndoStack.trim (WeightedUndoStack.mk [mkAction "a" "ab" 1] 1 1)
  = WeightedUndoStack.mk [mkAction "a" "ab" 1] (Z.max 0 1) 1 /\
  WeightedUndoStack.push (mkAction "abc" "abcxyz" 3) (WeightedUndoStack.mk [] 0 2)
  = WeightedUndoStack.mk [] 0 2 /\
  (let st' := exec_APPEND "xyz" (exec_CREATE 2 "abc" initial) in
   WeightedUndoStack.nodes (undoStack st') = [] /\
   step st' "UNDO" = Val (st', [msg_undo])).
Proof.
  destruct C4_trim_evicts_oldest as (_ & _ & Hstep & Hstop & Hsole & Hlost).
  split; [|split; [|split]].
  - apply (Hstep [mkAction "ab" "abc" 1] (mkAction "a" "ab" 1) 2 1). lia.
  - apply (Hstop [mkAction "a" "ab" 1] 1 1). right. lia.
  - apply (Hsole (mkAction "abc" "abcxyz" 3) 2). simpl. unfold INT_MAX. lia.
  - apply (Hlost (exec_CREATE 2 "abc" initial) "xyz").
    + reflexivity.
    + reflexivity.
    + reflexivity.
    + unfold size, INT_MAX. simpl. lia.
Defined.

(** ** C5: the cached total weight *)

(** On the stack alone: with the cap at [INT_MAX], a push that takes the sum
    past [INT_MAX] wraps the [int] total to a negative value; nothing is
    evicted and the total is clamped to 0. *)
Lemma push_past_INT_MAX :
  let s0 := WeightedUndoStack.setMaxWeight INT_MAX WeightedUndoStack.init in
  let s1 := WeightedUndoStack.push (mkAction "a" "b" INT_MAX) s0 in
  let s2 := WeightedUndoStack.push (mkAction "b" "a" 1) s1 in
  WeightedUndoStack.totalWeight_ s1 = sum_weights (WeightedUndoStack.nodes s1) /\
  WeightedUndoStack.totalWeight_ s2 = 0 /\
  sum_weights (WeightedUndoStack.nodes s2) = 2147483648.
Proof. repeat split. Qed.




(** ** C6: UNDO followed by REDO *)

Lemma session_eq (st : Session) (c : string) (u : WeightedUndoStack.t)
    (r : RedoStack.t) :
  c = current st -> u = undoStack st -> r = redoStack st ->
  mkSession c (created st) (maxWeight st) u r = st.
Proof. intros -> -> ->. now destruct st. Qed.

(** C6: in every reachable Active session whose Undo List is not empty, UNDO
    succeeds, the REDO that follows succeeds, and afterwards the buffer is
    what it was before the UNDO, and so is the Redo List.  When the session
    was reached while the cap plus the length of the buffer fitted in an
    [int], the whole session is what it was: the re-push then never evicts
    the action it pushes, whatever the capacity. *)
Theorem C6_undo_then_redo_restores :
  forall st,
    reachable st -> created st = true ->
    WeightedUndoStack.empty (undoStack st) = false ->
    exists st1 st2,
      step st "UNDO" = Val (st1, []) /\
      step st1 "REDO" = Val (st2, []) /\
      current st2 = current st /\
      redoStack st2 = redoStack st /\
      (reachable_fits st -> st2 = st).
Proof.
  intros st Hr Hc Hne.
  destruct (reachable_Basic st Hr) as [[o Hb] _ _ _ _].
  unfold WeightedUndoStack.empty in Hne.
  destruct (WeightedUndoStack.nodes (undoStack st)) as [|a below] eqn:E;
    [discriminate|].
  simpl in Hb. destruct Hb as [Hnext _].
  eexists. eexists.
  split; [rewrite (step_UNDO st Hc); apply (exec_UNDO_top st a below E)|].
  split; [rewrite step_REDO by exact Hc; apply exec_REDO_top; reflexivity|].
  simpl. split; [exact Hnext|]. split; [reflexivity|].
  intros Hf.
  destruct (reachable_fits_Good st Hf)
    as ([(Ht & Hnn & Hm) Hcap _ _ _] & _ & Hfi).
  apply fits_int_spec in Hfi. pose proof (size_nonneg (current st)).
  rewrite E in Ht, Hnn. simpl in Ht.
  inversion Hnn as [|? ? Ha Hbelow]; subst.
  pose proof (sum_weights_nonneg _ Hbelow) as Hs.
  rewrite clamp0_id by lia.
  rewrite push_fits by (simpl; lia). simpl.
  apply session_eq; [exact Hnext | | reflexivity].
  destruct (undoStack st) as [n t m]. simpl in *. subst n. f_equal. lia.
Qed.

Lemma C6_witness :
  let st := exec_APPEND "de" (exec_REPLACE "a" "b" (exec_CREATE 3 "aba" initial)) in
  exists st1 st2,
    step st "UNDO" = Val (st1, []) /\
    step st1 "REDO" = Val (st2, []) /\
    current st2 = current st /\
    redoStack st2 = redoStack st /\
    (reachable_fits st -> st2 = st).
Proof.
  apply C6_undo_then_redo_restores.
  - exists ["CREATE 3 aba"; "REPLACE a b"; "APPEND de"], []. reflexivity.
  - reflexivity.
  - reflexivity.
Defined.

(** ** C7: the buffer and the newest nodes *)

(** C7: in every reachable Active session whose Undo List has a newest node
    [a], the buffer is [next a] (the text after the action); and the UNDO
    that follows succeeds, moves [a] to the head of the Redo List and leaves
    [prev a] (the text before the action) in the buffer. *)
Theorem C7_buffer_matches_history :
  forall st a below,
    reachable st -> created st = true ->
    WeightedUndoStack.nodes (undoStack st) = a :: below ->
    current st = next a /\
    exists st',
      step st "UNDO" = Val (st', []) /\
      current st' = prev a /\
      redoStack st' = a :: redoStack st /\
      WeightedUndoStack.nodes (undoStack st') = below.
Proof.
  intros st a below Hr Hc E.
  destruct (reachable_Basic st Hr) as [[o Hb] _ _ _ _].
  rewrite E in Hb. simpl in Hb. destruct Hb as [Hnext _].
  split; [now symmetry|].
  eexists. split; [rewrite (step_UNDO st Hc); apply (exec_UNDO_top st a below E)|].
  simpl. repeat split.
Qed.

Lemma C7_witness :
  let st := exec_DELETE 1 (exec_REPLACE "a" "b" (exec_CREATE 10 "aaa" initial)) in
  let a := mkAction "bbb" "b" 2 in
  current st = next a /\
  exists st',
    step st "UNDO" = Val (st', []) /\
    current st' = prev a /\
    redoStack st' = a :: redoStack st /\
    WeightedUndoStack.nodes (undoStack st') = [mkAction "aaa" "bbb" 3].
Proof.
  apply C7_buffer_matches_history.
  - exists ["CREATE 10 aaa"; "REPLACE a b"; "DELETE 1"], []. reflexivity.
  - reflexivity.
  - reflexivity.
Defined.

(** ** C8: when the Redo List is cleared *)

(** C8: every executed APPEND, REPLACE or DELETE line and every executed
    CREATE line leaves the Redo List empty; UNDO leaves the Redo List as it
    was or adds one node on top of it, and REDO leaves it as it was or
    removes only its head, so neither clears it; and right after an
    APPEND, REPLACE or DELETE a REDO reports that there is nothing to redo
    and changes nothing, whatever the Redo List held before the edit. *)
Theorem C8_redo_list_cleared_by_edits :
  (forall st line e,
     created st = true -> reads line e ->
     exists st',
       step st line = Val (st', []) /\
       redoStack st' = [] /\
       step st' "REDO" = Val (st', [msg_redo])) /\
  (forall st line cap text,
     creates line cap text ->
     exists st', step st line = Val (st', []) /\ redoStack st' = []) /\
  (forall st st' out,
     created st = true -> step st "UNDO" = Val (st', out) ->
     redoStack st' = redoStack st \/
     exists a, redoStack st' = a :: redoStack st) /\
  (forall st st' out,
     created st = true -> step st "REDO" = Val (st', out) ->
     redoStack st' = redoStack st \/
     exists a, redoStack st = a :: redoStack st').
Proof.
  split; [|split; [|split]].
  - intros st line e Hc Hr. exists (exec_edit e st).
    split; [now apply step_reads|].
    assert (Hredo : redoStack (exec_edit e st) = [])
      by (rewrite exec_edit_action; reflexivity).
    split; [exact Hredo|].
    rewrite step_REDO by (now rewrite exec_edit_created).
    now apply exec_REDO_empty.
  - intros st line cap text Hc. exists (exec_CREATE cap text st).
    split; [now apply step_creates | reflexivity].
  - intros st st' out Hc H. rewrite step_UNDO in H by exact Hc.
    destruct (WeightedUndoStack.nodes (undoStack st)) as [|a below] eqn:E.
    + rewrite (exec_UNDO_empty st E) in H. inversion H; subst. now left.
    + rewrite (exec_UNDO_top st a below E) in H. inversion H; subst.
      right. now exists a.
  - intros st st' out Hc H. rewrite step_REDO in H by exact Hc.
    destruct (redoStack st) as [|a below] eqn:E.
    + rewrite (exec_REDO_empty st E) in H. inversion H; subst. now left.
    + rewrite (exec_REDO_top st a below E) in H. inversion H; subst.
      right. now exists a.
Qed.

Lemma C8_witness :
  let st := exec_APPEND "de" (exec_CREATE 10 "abc" initial) in
  let a := mkAction "abc" "abcde" 2 in
  let undone := mkSession "abc" true 10 (WeightedUndoStack.mk [] 0 10) [a] in
  (exists st',
     step undone "DELETE 1" = Val (st', []) /\
     redoStack st' = [] /\
     step st' "REDO" = Val (st', [msg_redo])) /\
  (exists st',
     step undone "CREATE 3 xyz" = Val (st', []) /\ redoStack st' = []) /\
  (redoStack undone = redoStack st \/
   exists a', redoStack undone = a' :: redoStack st) /\
  (redoStack st = redoStack undone \/
   exists a', redoStack undone = a' :: redoStack st).
Proof.
  destruct C8_redo_list_cleared_by_edits as (Hedit & Hcreate & Hundo & Hredo).
  intros st a undone. split; [|split; [|split]].
  - apply (Hedit undone "DELETE 1" (Delete 1)); [reflexivity|].
    split; [reflexivity|]. exists "1", []. split; reflexivity.
  - apply (Hcreate undone "CREATE 3 xyz" 3 "xyz").
    split; [reflexivity|]. exists "3", []. split; reflexivity.
  - apply (Hundo st undone []); reflexivity.
  - apply (Hredo undone st []); reflexivity.
Defined.

(** ** C9: actions of weight 0 *)

Lemma substring_whole (s : string) : substring 0 (String.length s) s = s.
Proof. induction s as [|c s IH]; simpl; [reflexivity | now rewrite IH]. Qed.

Lemma substring_shorter (s : string) :
  forall n, size (substring 0 n s) <= size s.
Proof.
  unfold size. induction s as [|c s IH]; intros n.
  - destruct n; simpl; lia.
  - destruct n as [|n]; simpl String.length; [lia|].
    specialize (IH n). simpl substring. simpl String.length. lia.
Qed.

(** A DELETE at or beyond the end removes nothing and does not lengthen the
    buffer. *)
Lemma delete_beyond (k : Z) (buf : string) :
  size buf <= k ->
  weight (action_of (Delete k) buf) = 0 /\
  size (next (action_of (Delete k) buf)) <= size buf.
Proof.
  intros H. pose proof (size_nonneg buf) as H0.
  pose proof (to_int_range (size buf)) as Hr.
  cbn [action_of weight next]. split; [|apply substring_shorter].
  destruct (Z.ltb_spec k 0); [lia|].
  destruct (Z.gtb_spec k (to_int (size buf))) as [Hgt|Hle]; [lia|].
  assert (size buf <= INT_MAX) by lia.
  rewrite to_int_small in * by (unfold INT_MIN; lia). lia.
Qed.

Lemma replace_absent (findc repc : ascii) (buf : string) :
  occurs findc buf = false -> replace_loop findc repc buf = (buf, 0).
Proof.
  induction buf as [|c rest IH]; simpl; intros H; [reflexivity|].
  apply orb_false_iff in H. destruct H as [Hc Hrest].
  now rewrite (IH Hrest), Hc.
Qed.

(** A run of weight-0 edits on a stack that is within its cap adds one node
    per edit. *)
Lemma zero_edits_length (es : list Edit) :
  forall st,
    0 <= WeightedUndoStack.totalWeight_ (undoStack st)
      <= WeightedUndoStack.maxWeight_ (undoStack st) ->
    all_zero_weight (current st) es ->
    List.length (WeightedUndoStack.nodes (undoStack (exec_edits es st)))
    = (List.length es + List.length (WeightedUndoStack.nodes (undoStack st)))%nat.
Proof.
  induction es as [|e es IH]; intros st Hcap Hz; simpl; [reflexivity|].
  destruct Hz as [Hw Hz]. unfold exec_edits in IH.
  pose proof (int_add_le (WeightedUndoStack.totalWeight_ (undoStack st))
                (weight (action_of e (current st)))) as Hadd.
  assert (Hpush : undoStack (exec_edit e st)
                  = WeightedUndoStack.mk
                      (action_of e (current st)
                       :: WeightedUndoStack.nodes (undoStack st))
                      (WeightedUndoStack.clamp0
                         (int_add (WeightedUndoStack.totalWeight_ (undoStack st))
                            (weight (action_of e (current st)))))
                      (WeightedUndoStack.maxWeight_ (undoStack st))).
  { rewrite exec_edit_action. simpl. unfold WeightedUndoStack.push.
    rewrite trim_fits by (simpl; lia). reflexivity. }
  rewrite IH.
  - rewrite Hpush. simpl. lia.
  - rewrite Hpush. simpl.
    pose proof (clamp0_nonneg
                  (int_add (WeightedUndoStack.totalWeight_ (undoStack st))
                     (weight (action_of e (current st))))).
    rewrite clamp0_max in *. lia.
  - now rewrite exec_edit_current.
Qed.

(** C9: pushing an action of weight 0 onto an Undo List that is within its
    cap evicts nothing, also when the cap is 0.  Hence a CREATE with
    capacity 0 followed by any number of edit lines of weight 0 leaves one
    node per line on the Undo List, and as many UNDO lines all succeed,
    silently, ending with the text given to CREATE.  DELETE with an index at
    or beyond the end of the buffer and REPLACE of a character that does not
    occur are such edits, however often they are repeated. *)
Theorem C9_zero_weight_never_evicted :
  (forall a s,
     weight a = 0 ->
     WeightedUndoStack.totalWeight_ s <= WeightedUndoStack.maxWeight_ s ->
     WeightedUndoStack.nodes (WeightedUndoStack.push a s)
     = a :: WeightedUndoStack.nodes s) /\
  (forall st0 cline text lines es,
     creates cline 0 text ->
     Forall2 reads lines es ->
     all_zero_weight text es ->
     exists st1,
       run st0 (cline :: lines) = ([], Val st1) /\
       WeightedUndoStack.maxWeight_ (undoStack st1) = 0 /\
       List.length (WeightedUndoStack.nodes (undoStack st1)) = List.length lines /\
       exists st2,
         run st1 (undo_lines (List.length lines)) = ([], Val st2) /\
         current st2 = text) /\
  (forall text k n,
     size text <= k -> all_zero_weight text (repeat (Delete k) n)) /\
  (forall text findc repc n,
     occurs findc text = false ->
     all_zero_weight text (repeat (Replace findc repc) n)).
Proof.
  split; [|split; [|split]].
  - intros a s Hw Hcap. unfold WeightedUndoStack.push.
    pose proof (int_add_le (WeightedUndoStack.totalWeight_ s) (weight a)).
    rewrite trim_fits by (simpl; lia). reflexivity.
  - intros st0 cline text lines es Hc Hr Hz.
    pose proof (run_create_edits st0 cline 0 text lines es Hc Hr) as Hrun.
    set (sC := exec_CREATE 0 text st0) in *.
    set (st1 := exec_edits es sC) in *.
    assert (Hlen : List.length (WeightedUndoStack.nodes (undoStack st1))
                   = List.length lines).
    { unfold st1, sC. rewrite zero_edits_length; [|cbv; split; discriminate|exact Hz].
      simpl. rewrite (Forall2_reads_length _ _ Hr). lia. }
    exists st1. split; [exact Hrun|]. split; [|split; [exact Hlen|]].
    + unfold st1. now rewrite exec_edits_maxWeight.
    + rewrite (Forall2_reads_length _ _ Hr) in *.
      destruct (undo_all_exec_edits es sC)
        as (st2 & Hundo & Hcur); [reflexivity | reflexivity | exact Hlen |].
      exists st2. split; [exact Hundo | exact Hcur].
  - intros text k n. revert text.
    induction n as [|n IH]; intros text Hk; cbn [repeat all_zero_weight];
      [exact I|].
    destruct (delete_beyond k text Hk) as [Hw Hshort].
    split; [exact Hw|]. apply IH. lia.
  - intros text findc repc n Ho.
    induction n as [|n IH]; cbn [repeat all_zero_weight action_of]; [exact I|].
    rewrite (replace_absent findc repc text Ho). simpl.
    split; [reflexivity | exact IH].
Qed.

Lemma C9_witness :
  (let a := mkAction "abc" "abc" 0 in
   let s := WeightedUndoStack.mk [a] 0 0 in
   WeightedUndoStack.nodes (WeightedUndoStack.push a s) = [a; a]) /\
  (exists st1,
     run initial ["CREATE 0 abc"; "DELETE 7"; "REPLACE z y"] = ([], Val st1) /\
     WeightedUndoStack.maxWeight_ (undoStack st1) = 0 /\
     List.length (WeightedUndoStack.nodes (undoStack st1)) = 2%nat /\
     exists st2,
       run st1 (undo_lines 2) = ([], Val st2) /\ current st2 = "abc") /\
  all_zero_weight "abc" (repeat (Delete 3) 4) /\
  all_zero_weight "abc" (repeat (Replace "z" "y") 4).
Proof.
  destruct C9_zero_weight_never_evicted as (Hpush & Hrun & Hdelete & Hreplace).
  split; [|split; [|split]].
  - apply Hpush; simpl; [reflexivity | lia].
  - apply (Hrun initial "CREATE 0 abc" "abc" ["DELETE 7"; "REPLACE z y"]
             [Delete 7; Replace "z" "y"]).
    + split; [reflexivity|]. exists "0", []. split; reflexivity.
    + constructor; [|constructor; [|constructor]].
      * split; [reflexivity|]. exists "7", []. split; reflexivity.
      * split; [reflexivity|]. exists "z", "y", []. repeat split.
    + simpl. repeat split.
  - apply Hdelete. unfold size. simpl. lia.
  - apply Hreplace. reflexivity.
Defined.

(** ** C10: pop is only reached on a non-empty stack *)

Lemma stoi_defined (s : string) (f : fault) :
  stoi s = Fault f -> defined_error f = true.
Proof.
  unfold stoi.
  destruct (match skip_spaces s with
            | EmptyString => (false, skip_spaces s)
            | String c rest =>
                if Ascii.eqb c "-"%char then (true, rest)
                else if Ascii.eqb c "+"%char then (false, rest)
                else (false, skip_spaces s)
            end) as [negative s2].
  destruct (read_digits s2 0 false) as [v|].
  - destruct ((INT_MIN <=? (if negative then - v else v)) &&
              ((if negative then - v else v) <=? INT_MAX));
      intros H; inversion H; reflexivity.
  - intros H; inversion H; reflexivity.
Qed.

Lemma exec_UNDO_guarded (st : Session) :
  (WeightedUndoStack.empty (undoStack st) = true /\
   exec_UNDO st = Val (st, [msg_undo])) \/
  (WeightedUndoStack.empty (undoStack st) = false /\
   exists a u,
     WeightedUndoStack.pop (undoStack st) = Val (a, u) /\
     exec_UNDO st =
     Val (mkSession (prev a) (created st) (maxWeight st) u
            (RedoStack.push a (redoStack st)), [])).
Proof.
  unfold exec_UNDO, WeightedUndoStack.empty, WeightedUndoStack.pop.
  destruct (WeightedUndoStack.nodes (undoStack st)) as [|a below].
  - left. now split.
  - right. split; [reflexivity|]. eexists. eexists. split; reflexivity.
Qed.

Lemma exec_REDO_guarded (st : Session) :
  (RedoStack.empty (redoStack st) = true /\
   exec_REDO st = Val (st, [msg_redo])) \/
  (RedoStack.empty (redoStack st) = false /\
   exists a r,
     RedoStack.pop (redoStack st) = Val (a, r) /\
     exec_REDO st =
     Val (mkSession (next a) (created st) (maxWeight st)
            (WeightedUndoStack.push a (undoStack st)) r, [])).
Proof.
  unfold exec_REDO.
  destruct (redoStack st) as [|a below].
  - left. now split.
  - right. split; [reflexivity|]. eexists. eexists. split; reflexivity.
Qed.

Lemma step_args_no_null (st : Session) (args : list string) :
  no_null_dereference (step_args st args) = true.
Proof.
  unfold step_args, skip, exec_PRINT.
  destruct args as [|command operands]; [reflexivity|].
  destruct (String.eqb command "CREATE").
  { destruct operands as [|a1 [|a2 more]]; try reflexivity.
    destruct (stoi a1) as [mw|f] eqn:E; simpl; [reflexivity|].
    now apply stoi_defined with a1. }
  destruct (negb (created st)); [reflexivity|].
  destruct (String.eqb command "APPEND").
  { destruct operands; reflexivity. }
  destruct (String.eqb command "REPLACE").
  { destruct operands as [|a1 [|a2 more]]; reflexivity. }
  destruct (String.eqb command "DELETE").
  { destruct operands as [|a1 more]; [reflexivity|].
    destruct (stoi a1) as [idx|f] eqn:E; simpl; [reflexivity|].
    now apply stoi_defined with a1. }
  destruct (String.eqb command "UNDO").
  { destruct (exec_UNDO_guarded st) as [[_ ->] | [_ (a & u & _ & ->)]];
      reflexivity. }
  destruct (String.eqb command "REDO").
  { destruct (exec_REDO_guarded st) as [[_ ->] | [_ (a & r & _ & ->)]];
      reflexivity. }
  destruct (String.eqb command "PRINT"); reflexivity.
Qed.

Lemma step_no_null (st : Session) (line : string) :
  no_null_dereference (step st line) = true.
Proof.
  unfold step. destruct (str_empty line); [reflexivity|].
  apply step_args_no_null.
Qed.

Lemma run_no_null (lines : list string) :
  forall st, no_null_dereference (snd (run st lines)) = true.
Proof.
  induction lines as [|line rest IH]; intros st; simpl; [reflexivity|].
  pose proof (step_no_null st line) as Hs.
  destruct (step st line) as [[st' out]|f]; [|exact Hs].
  specialize (IH st'). now destruct (run st' rest).
Qed.

(** C10: in the UNDO branch [pop] on the undo stack is evaluated only when
    [empty] has returned false on that stack, and then it returns a node;
    likewise in the REDO branch for the redo stack.  So no line, in any
    session, and no input to the program ends in the null pointer
    dereference of [pop]: a run ends normally or with an exception of
    [std::stoi]. *)
Theorem C10_pop_never_on_empty :
  (forall st,
     (WeightedUndoStack.empty (undoStack st) = true /\
      exec_UNDO st = Val (st, [msg_undo])) \/
     (WeightedUndoStack.empty (undoStack st) = false /\
      exists a u,
        WeightedUndoStack.pop (undoStack st) = Val (a, u) /\
        exec_UNDO st =
        Val (mkSession (prev a) (created st) (maxWeight st) u
               (RedoStack.push a (redoStack st)), []))) /\
  (forall st,
     (RedoStack.empty (redoStack st) = true /\
      exec_REDO st = Val (st, [msg_redo])) \/
     (RedoStack.empty (redoStack st) = false /\
      exists a r,
        RedoStack.pop (redoStack st) = Val (a, r) /\
        exec_REDO st =
        Val (mkSession (next a) (created st) (maxWeight st)
               (WeightedUndoStack.push a (undoStack st)) r, []))) /\
  (forall st line, no_null_dereference (step st line) = true) /\
  (forall lines, no_null_dereference (snd (main lines)) = true).
Proof.
  split; [exact exec_UNDO_guarded|]. split; [exact exec_REDO_guarded|].
  split; [exact step_no_null|]. intros lines. apply run_no_null.
Qed.

(** * Further properties of the code *)

(** ** The tokenizer [get_args] *)

Lemma push_back_nonempty (cur : string) (c : ascii) :
  str_empty (push_back cur c) = false.
Proof. destruct cur; reflexivity. Qed.

Lemma occurs_append (c : ascii) (s1 s2 : string) :
  occurs c (String.append s1 s2) = occurs c s1 || occurs c s2.
Proof.
  induction s1 as [|d s1 IH]; simpl; [reflexivity|].
  now rewrite IH, orb_assoc.
Qed.

Lemma occurs_push_back (c : ascii) (cur : string) (d : ascii) :
  occurs c (push_back cur d) = occurs c cur || Ascii.eqb d c.
Proof. unfold push_back. rewrite occurs_append. simpl. now rewrite orb_false_r. Qed.

(** The loop only ever stores non-empty tokens without a double quote. *)
Lemma get_args_loop_tokens (command : string) :
  forall in_quotes cur args,
    occurs dquote cur = false ->
    Forall (fun t => str_empty t = false /\ occurs dquote t = false) args ->
    Forall (fun t => str_empty t = false /\ occurs dquote t = false)
      (get_args_loop command in_quotes cur args).
Proof.
  induction command as [|c rest IH]; intros q cur args Hcur Hargs; simpl.
  - destruct (str_empty cur) eqn:E; simpl; [exact Hargs|].
    apply Forall_app. split; [exact Hargs|]. constructor; [now split | constructor].
  - destruct (Ascii.eqb c space && negb q).
    + destruct (str_empty cur) eqn:E; simpl.
      * now apply IH.
      * apply IH; [reflexivity|].
        apply Forall_app. split; [exact Hargs|].
        constructor; [now split | constructor].
    + destruct (Ascii.eqb c dquote) eqn:Eq.
      * now apply IH.
      * apply IH; [|exact Hargs].
        rewrite occurs_push_back, Hcur, Eq. reflexivity.
Qed.

(** X1: a token returned by [get_args] is never empty and never contains a
    double quote character, whatever the line. *)
Theorem X1_tokens_nonempty_unquoted :
  forall line,
    Forall (fun t => str_empty t = false /\ occurs dquote t = false)
      (get_args line).
Proof.
  intros line. unfold get_args.
  apply get_args_loop_tokens; [reflexivity | constructor].
Qed.

(** Outside quotes the loop never lets a space into a token, and the tokens
    put together are the line without its spaces. *)
Lemma get_args_loop_unquoted (command : string) :
  forall cur args,
    occurs dquote command = false ->
    occurs space cur = false ->
    Forall (fun t => occurs space t = false) args ->
    Forall (fun t => occurs space t = false)
      (get_args_loop command false cur args) /\
    flatten (get_args_loop command false cur args)
    = String.append (flatten args)
        (String.append cur (remove_char space command)).
Proof.
  assert (Hflat : forall args t,
             flatten (args ++ [t]) = String.append (flatten args) t).
  { induction args as [|a args IH]; intros t; simpl.
    - apply append_empty_r.
    - now rewrite IH, append_assoc. }
  induction command as [|c rest IH]; intros cur args Hq Hcur Hargs; simpl.
  - destruct (str_empty cur) eqn:E; simpl.
    + split; [exact Hargs|]. destruct cur; [|discriminate].
      simpl. now rewrite append_empty_r.
    + split.
      * apply Forall_app. split; [exact Hargs | now repeat constructor].
      * now rewrite Hflat, append_empty_r.
  - simpl in Hq. apply orb_false_iff in Hq. destruct Hq as [Hc Hq].
    rewrite Hc. rewrite andb_true_r.
    destruct (Ascii.eqb c space) eqn:Es.
    + destruct (str_empty cur) eqn:E; simpl.
      * now apply IH.
      * destruct (IH EmptyString (args ++ [cur]) Hq eq_refl) as [H1 H2].
        { apply Forall_app. split; [exact Hargs | now repeat constructor]. }
        split; [exact H1|]. rewrite H2, Hflat. simpl. now rewrite append_assoc.
    + destruct (IH (push_back cur c) args Hq) as [H1 H2]; [|exact Hargs|].
      { rewrite occurs_push_back, Hcur, Es. reflexivity. }
      split; [exact H1|]. rewrite H2. now rewrite push_back_append.
Qed.

(** X2: on a line without double quotes, no token contains a space, and the
    tokens put together in order are exactly the line with its spaces
    removed: the tokenizer neither drops, adds nor reorders characters. *)
Theorem X2_unquoted_line_split :
  forall line,
    occurs dquote line = false ->
    Forall (fun t => occurs space t = false) (get_args line) /\
    flatten (get_args line) = remove_char space line.
Proof.
  intros line Hq. unfold get_args.
  destruct (get_args_loop_unquoted line EmptyString [] Hq eq_refl) as [H1 H2];
    [constructor|].
  split; [exact H1 | exact H2].
Qed.

Lemma X2_witness :
  Forall (fun t => occurs space t = false) (get_args "REPLACE  a b ") /\
  flatten (get_args "REPLACE  a b ") = remove_char space "REPLACE  a b ".
Proof. apply X2_unquoted_line_split. reflexivity. Defined.

Lemma join_quoted_loop (toks : list string) :
  forall args,
    Forall (fun t => str_empty t = false /\ occurs dquote t = false) toks ->
    get_args_loop (join_with quoted toks) false EmptyString args = args ++ toks.
Proof.
  induction toks as [|t rest IH]; intros args H; simpl.
  - now rewrite app_nil_r.
  - inversion H as [|? ? [Hne Hq] Hrest]; subst.
    rewrite append_assoc.
    change (Ascii.eqb dquote space && negb false) with false.
    change (Ascii.eqb dquote dquote) with true. cbv iota.
    rewrite get_args_loop_run by (auto).
    simpl String.append.
    destruct rest as [|t' rest'].
    + simpl. rewrite Hne. reflexivity.
    + cbn [get_args_loop String.append].
      change (Ascii.eqb dquote space && negb true) with false.
      change (Ascii.eqb dquote dquote) with true. cbv iota.
      change (Ascii.eqb space space && negb (negb true)) with true. cbv iota.
      rewrite Hne. simpl negb. cbv iota.
      rewrite IH by exact Hrest. now rewrite <- app_assoc.
Qed.

Lemma join_plain_loop (toks : list string) :
  forall args,
    Forall (fun t => str_empty t = false /\ occurs dquote t = false /\
                     occurs space t = false) toks ->
    get_args_loop (join_with (fun t => t) toks) false EmptyString args
    = args ++ toks.
Proof.
  induction toks as [|t rest IH]; intros args H; simpl.
  - now rewrite app_nil_r.
  - inversion H as [|? ? (Hne & Hq & Hs) Hrest]; subst.
    rewrite get_args_loop_run by (auto).
    simpl String.append.
    destruct rest as [|t' rest'].
    + simpl. rewrite Hne. reflexivity.
    + cbn [get_args_loop].
      change (Ascii.eqb space space && negb false) with true. cbv iota.
      rewrite Hne. simpl negb. cbv iota.
      rewrite IH by exact Hrest. now rewrite <- app_assoc.
Qed.

(** X3: tokens survive the trip through a line.  Non-empty tokens without
    double quotes, each written between double quotes and separated by one
    space, are read back unchanged (spaces inside them included); if they
    contain no space either, the quotes are not needed. *)
Theorem X3_get_args_round_trip :
  (forall toks,
     Forall (fun t => str_empty t = false /\ occurs dquote t = false) toks ->
     get_args (join_with quoted toks) = toks) /\
  (forall toks,
     Forall (fun t => str_empty t = false /\ occurs dquote t = false /\
                      occurs space t = false) toks ->
     get_args (join_with (fun t => t) toks) = toks).
Proof.
  split; intros toks H; unfold get_args.
  - now rewrite join_quoted_loop.
  - now rewrite join_plain_loop.
Qed.

Lemma X3_witness :
  get_args (join_with quoted ["CREATE"; "10"; "hello  world"])
  = ["CREATE"; "10"; "hello  world"] /\
  get_args (join_with (fun t => t) ["DELETE"; "3"]) = ["DELETE"; "3"].
Proof.
  destruct X3_get_args_round_trip as [Hq Hp]. split.
  - apply Hq. repeat constructor.
  - apply Hp. repeat constructor.
Defined.

Lemma get_args_loop_spaces (line : string) :
  forall args,
    only_spaces line = true ->
    get_args_loop line false EmptyString args = args.
Proof.
  induction line as [|c rest IH]; intros args H; simpl; [reflexivity|].
  simpl in H. apply andb_true_iff in H. destruct H as [-> H].
  simpl. now apply IH.
Qed.

(** X4: a line made of spaces only yields no token and is skipped in every
    session: no output, no change, no failure. *)
Theorem X4_blank_line_skipped :
  forall st line,
    only_spaces line = true ->
    get_args line = [] /\ step st line = Val (st, []).
Proof.
  intros st line H.
  assert (Hargs : get_args line = [])
    by (unfold get_args; now apply get_args_loop_spaces).
  split; [exact Hargs|].
  unfold step. rewrite Hargs. now destruct (str_empty line).
Qed.

Lemma X4_witness :
  get_args "   " = [] /\
  step (exec_CREATE 3 "abc" initial) "   "
  = Val (exec_CREATE 3 "abc" initial, []).
Proof. apply X4_blank_line_skipped. reflexivity. Defined.

(** ** The command loop *)



Lemma step_not_created (st : Session) (line : string) :
  created st = false ->
  hd_error (get_args line) <> Some "CREATE" ->
  step st line = Val (st, []).
Proof.
  intros Hc Hhd. unfold step, step_args, skip.
  destruct (str_empty line); [reflexivity|].
  destruct (get_args line) as [|command operands]; [reflexivity|].
  destruct (String.eqb_spec command "CREATE") as [->|_].
  - now elim Hhd.
  - now rewrite Hc.
Qed.

(** X5: until a CREATE line is read nothing happens: in a session that is
    not created, every line whose first token is not CREATE is skipped (a
    DELETE with a bad index included, since its operand is not even read),
    and an input without any CREATE line leaves the initial session and
    writes nothing. *)
Theorem X5_nothing_before_create :
  (forall st line,
     created st = false ->
     hd_error (get_args line) <> Some "CREATE" ->
     step st line = Val (st, [])) /\
  (forall lines,
     Forall (fun line => hd_error (get_args line) <> Some "CREATE") lines ->
     main lines = ([], Val initial)).
Proof.
  split; [exact step_not_created|].
  intros lines H. unfold main.
  induction H as [|line rest Hline _ IH]; simpl; [reflexivity|].
  rewrite (step_not_created initial line eq_refl Hline). now rewrite IH.
Qed.

Lemma X5_witness :
  step initial "DELETE x" = Val (initial, []) /\
  main ["APPEND abc"; "PRINT"; "UNDO"; "DELETE x"] = ([], Val initial).
Proof.
  destruct X5_nothing_before_create as [Hstep Hmain]. split.
  - apply Hstep; [reflexivity | discriminate].
  - apply Hmain. repeat constructor; discriminate.
Defined.

(** X6: an executed CREATE resets everything: whatever the session was, the
    result is the given text, capacity and an empty history, with the cap of
    the Undo List set to the capacity, or to 0 when the capacity is
    negative. *)
Theorem X6_create_resets :
  forall st line cap text,
    creates line cap text ->
    step st line
    = Val (mkSession text true cap
             (WeightedUndoStack.mk [] 0 (Z.max 0 cap)) [], []).
Proof.
  intros st line cap text Hc.
  rewrite (step_creates st line cap text Hc). now rewrite exec_CREATE_explicit.
Qed.

Lemma X6_witness :
  step (exec_APPEND "de" (exec_CREATE 10 "abc" initial)) "CREATE -4 xyz"
  = Val (mkSession "xyz" true (-4) (WeightedUndoStack.mk [] 0 (Z.max 0 (-4))) [],
         []).
Proof.
  apply X6_create_resets.
  split; [reflexivity|]. exists "-4", []. split; reflexivity.
Defined.

(** X7: in every reachable session the cap of the Undo List is the capacity
    of the last CREATE clamped at 0, and a session that is not created is
    the initial one.  In every session reached while the cap plus the
    length of the buffer fitted in an [int], the two lists together fit
    under the cap: the cached total of the Undo List plus the weights held
    by the Redo List do not exceed [maxWeight_]. *)
Theorem X7_history_budget :
  (forall st,
     reachable st ->
     WeightedUndoStack.maxWeight_ (undoStack st) = Z.max 0 (maxWeight st) /\
     (created st = false -> st = initial)) /\
  (forall st,
     reachable_fits st ->
     WeightedUndoStack.totalWeight_ (undoStack st) + sum_weights (redoStack st)
     <= WeightedUndoStack.maxWeight_ (undoStack st)).
Proof.
  split.
  - intros st Hr. destruct (reachable_Basic st Hr) as [_ _ _ H2 H3]. auto.
  - intros st Hr. destruct (reachable_fits_Good st Hr) as (_ & [H1 _ _] & _).
    exact H1.
Qed.

Lemma X7_witness :
  let st := mkSession "abc" true 5
              (WeightedUndoStack.mk [] 0 5)
              [mkAction "abc" "abcde" 2; mkAction "abcde" "abcdefgh" 3] in
  (WeightedUndoStack.maxWeight_ (undoStack st) = Z.max 0 (maxWeight st) /\
   (created st = false -> st = initial)) /\
  WeightedUndoStack.totalWeight_ (undoStack st) + sum_weights (redoStack st)
  <= WeightedUndoStack.maxWeight_ (undoStack st).
Proof.
  destruct X7_history_budget as [Hany Hfits]. split.
  - apply Hany.
    exists ["CREATE 5 abc"; "APPEND de"; "APPEND fgh"; "UNDO"; "UNDO"], [].
    reflexivity.
  - apply Hfits.
    exists ["CREATE 5 abc"; "APPEND de"; "APPEND fgh"; "UNDO"; "UNDO"], [].
    split; reflexivity.
Defined.

(** X8: REDO does not evict while the sizes fit in an [int].  In every
    Active session with a non-empty Redo List, reached while the cap plus
    the length of the buffer fitted in an [int], REDO puts the redone
    action on top of the Undo List and keeps every node that was there; the
    action's before-text is the buffer it is applied to. *)
Theorem X8_redo_never_evicts :
  forall st a r,
    reachable_fits st -> created st = true -> redoStack st = a :: r ->
    prev a = current st /\
    exists st',
      step st "REDO" = Val (st', []) /\
      current st' = next a /\
      redoStack st' = r /\
      WeightedUndoStack.nodes (undoStack st')
      = a :: WeightedUndoStack.nodes (undoStack st).
Proof.
  intros st a r Hr Hc E.
  destruct (reachable_fits_Good st Hr) as (HI & HB & Hf).
  destruct (redo_keeps_all st a r HI HB (fits_int_cap st Hf) E) as [Hp HR].
  split; [exact Hp|]. eexists. rewrite (step_REDO st Hc).
  split; [exact HR|]. repeat split.
Qed.

Lemma X8_witness :
  let st := mkSession "ab" true 3
              (WeightedUndoStack.mk [mkAction "a" "ab" 1] 1 3)
              [mkAction "ab" "abcd" 2] in
  prev (mkAction "ab" "abcd" 2) = current st /\
  exists st',
    step st "REDO" = Val (st', []) /\
    current st' = next (mkAction "ab" "abcd" 2) /\
    redoStack st' = [] /\
    WeightedUndoStack.nodes (undoStack st')
    = mkAction "ab" "abcd" 2 :: WeightedUndoStack.nodes (undoStack st).
Proof.
  apply X8_redo_never_evicts.
  - exists ["CREATE 3 a"; "APPEND b"; "APPEND cd"; "UNDO"], [].
    split; reflexivity.
  - reflexivity.
  - reflexivity.
Defined.

(** X9: in an Active session reached while the cap plus the length of the
    buffer fitted in an [int], a successful REDO followed by UNDO restores
    the whole session (buffer, both lists, cached total and cap). *)
Theorem X9_redo_then_undo_restores :
  forall st,
    reachable_fits st -> created st = true ->
    RedoStack.empty (redoStack st) = false ->
    exists st1,
      step st "REDO" = Val (st1, []) /\ step st1 "UNDO" = Val (st, []).
Proof.
  intros st Hr Hc Hne.
  destruct (redoStack st) as [|a r] eqn:E; [discriminate|].
  destruct (reachable_fits_Good st Hr) as (HI & HB & Hf).
  destruct (redo_keeps_all st a r HI HB (fits_int_cap st Hf) E) as [Hp HR].
  destruct HI as [(Ht & Hnn & Hm) _ _ _ _].
  pose proof (sum_weights_nonneg _ Hnn).
  eexists. rewrite (step_REDO st Hc). split; [exact HR|].
  rewrite step_UNDO by exact Hc.
  erewrite exec_UNDO_top by reflexivity. simpl.
  do 2 f_equal. rewrite <- E. apply session_eq; [exact Hp | | reflexivity].
  rewrite clamp0_id by lia.
  destruct (undoStack st) as [n t m]. simpl. f_equal. lia.
Qed.

Lemma X9_witness :
  let st := mkSession "ab" true 3
              (WeightedUndoStack.mk [mkAction "a" "ab" 1] 1 3)
              [mkAction "ab" "abcd" 2] in
  exists st1,
    step st "REDO" = Val (st1, []) /\ step st1 "UNDO" = Val (st, []).
Proof.
  apply X9_redo_then_undo_restores.
  - exists ["CREATE 3 a"; "APPEND b"; "APPEND cd"; "UNDO"], [].
    split; reflexivity.
  - reflexivity.
  - reflexivity.
Defined.

(** UNDO on a non-empty Undo List, then REDO, gives the session back. *)
Lemma undo_redo_back (st : Session) (a : Action) (below : list Action) :
  Inv st -> WeightedUndoStack.maxWeight_ (undoStack st) <= INT_MAX ->
  WeightedUndoStack.nodes (undoStack st) = a :: below ->
  exists st1,
    exec_UNDO st = Val (st1, []) /\ exec_REDO st1 = Val (st, []) /\
    WeightedUndoStack.nodes (undoStack st1) = below /\
    created st1 = created st /\
    WeightedUndoStack.maxWeight_ (undoStack st1)
    = WeightedUndoStack.maxWeight_ (undoStack st).
Proof.
  intros [(Ht & Hnn & Hm) Hcap _ [o Hb] _] Hint E.
  rewrite E in Ht, Hnn, Hb. simpl in Ht, Hb. destruct Hb as [Hnext _].
  inversion Hnn as [|? ? Ha Hbelow]; subst.
  pose proof (sum_weights_nonneg _ Hbelow).
  eexists. split; [apply (exec_UNDO_top st a below E)|].
  split; [|repeat split].
  erewrite exec_REDO_top by reflexivity. simpl.
  rewrite clamp0_id by lia. rewrite push_fits by (simpl; lia). simpl.
  do 2 f_equal. apply session_eq; [exact Hnext | | reflexivity].
  destruct (undoStack st) as [n t m]. simpl in *. subst n. f_equal. lia.
Qed.

Lemma run_one (st st' : Session) (line : string) (out : output) :
  step st line = Val (st', out) -> run st [line] = (out, Val st').
Proof. intros H. simpl. rewrite H. now rewrite app_nil_r. Qed.

Lemma undo_redo_many (k : nat) :
  forall st,
    Inv st -> WeightedUndoStack.maxWeight_ (undoStack st) <= INT_MAX ->
    created st = true ->
    (k <= List.length (WeightedUndoStack.nodes (undoStack st)))%nat ->
    run st (undo_lines k ++ redo_lines k) = ([], Val st).
Proof.
  induction k as [|k IH]; intros st HI Hint Hc Hk; [reflexivity|].
  destruct (WeightedUndoStack.nodes (undoStack st)) as [|a below] eqn:E;
    [simpl in Hk; lia|].
  destruct (undo_redo_back st a below HI Hint E)
    as (st1 & HU & HR & Hn & Hc1 & Hm1).
  unfold redo_lines. simpl repeat. rewrite repeat_cons.
  change (undo_lines (S k)) with ("UNDO" :: undo_lines k).
  rewrite <- app_comm_cons, app_assoc.
  rewrite <- (step_UNDO st Hc) in HU. rewrite (run_cons_Val _ _ _ _ HU).
  rewrite run_app. fold (redo_lines k). rewrite IH.
  - rewrite <- (step_REDO st1) in HR by congruence.
    now rewrite (run_one _ _ _ _ HR).
  - rewrite (step_UNDO st Hc) in HU. apply (Inv_UNDO st st1 [] HI HU).
  - now rewrite Hm1.
  - congruence.
  - rewrite Hn. simpl in Hk. lia.
Qed.

(** X10: in an Active session reached while the cap plus the length of the
    buffer fitted in an [int], [k] UNDOs followed by [k] REDOs, for any [k]
    up to the number of nodes of the Undo List, all succeed silently and
    give back exactly the session they started from. *)
Theorem X10_undo_k_redo_k_restores :
  forall st k,
    reachable_fits st -> created st = true ->
    (k <= List.length (WeightedUndoStack.nodes (undoStack st)))%nat ->
    run st (undo_lines k ++ redo_lines k) = ([], Val st).
Proof.
  intros st k Hr Hc Hk.
  destruct (reachable_fits_Good st Hr) as (HI & _ & Hf).
  apply fits_int_spec in Hf. pose proof (size_nonneg (current st)).
  apply undo_redo_many; auto. lia.
Qed.

Lemma X10_witness :
  let st := exec_DELETE 1 (exec_REPLACE "a" "b" (exec_CREATE 10 "aaa" initial)) in
  run st (undo_lines 2 ++ redo_lines 2) = ([], Val st).
Proof.
  apply X10_undo_k_redo_k_restores.
  - exists ["CREATE 10 aaa"; "REPLACE a b"; "DELETE 1"], [].
    split; reflexivity.
  - reflexivity.
  - simpl. lia.
Defined.

Lemma last_cons_default (A : Type) (l : list A) :
  forall x d d', last (x :: l) d = last (x :: l) d'.
Proof.
  induction l as [|y l IH]; intros x d d'; [reflexivity|].
  change (last (y :: l) d = last (y :: l) d'). apply IH.
Qed.

(** One UNDO per node empties the Undo List onto the Redo List. *)
Lemma undo_run (l : list Action) :
  forall st,
    created st = true ->
    WeightedUndoStack.nodes (undoStack st) = l ->
    exists st',
      run st (undo_lines (List.length l)) = ([], Val st') /\
      created st' = true /\
      WeightedUndoStack.nodes (undoStack st') = [] /\
      redoStack st' = rev l ++ redoStack st /\
      current st' = last (map prev l) (current st).
Proof.
  induction l as [|a below IH]; intros st Hc Hn.
  - exists st. simpl. auto.
  - pose proof (exec_UNDO_top st a below Hn) as HU.
    rewrite <- (step_UNDO st Hc) in HU.
    change (undo_lines (List.length (a :: below)))
      with ("UNDO" :: undo_lines (List.length below)).
    rewrite (run_cons_Val _ _ _ _ HU).
    edestruct IH as (st' & Hrun & Hc' & Hn' & Hr' & Hcur');
      [| |exists st'; split; [exact Hrun|]]; simpl; auto.
    split; [exact Hc'|]. split; [exact Hn'|]. simpl in Hr', Hcur'.
    split.
    + rewrite Hr'. simpl. rewrite <- app_assoc. reflexivity.
    + rewrite Hcur'. destruct below as [|b below]; [reflexivity|].
      apply last_cons_default.
Qed.

(** X11: in an Active session exactly as many UNDOs succeed as the Undo List
    has nodes.  They move every node to the Redo List, newest first, and
    leave in the buffer the before-text of the oldest node; the next UNDO
    writes the error line and changes nothing. *)
Theorem X11_undo_until_error :
  forall st,
    created st = true ->
    let l := WeightedUndoStack.nodes (undoStack st) in
    exists st',
      run st (undo_lines (List.length l)) = ([], Val st') /\
      run st (undo_lines (S (List.length l))) = ([msg_undo], Val st') /\
      WeightedUndoStack.nodes (undoStack st') = [] /\
      redoStack st' = rev l ++ redoStack st /\
      current st' = last (map prev l) (current st).
Proof.
  intros st Hc l.
  destruct (undo_run l st Hc eq_refl) as (st' & Hrun & Hc' & Hn' & Hr' & Hcur').
  exists st'. split; [exact Hrun|]. split; [|auto].
  unfold undo_lines. simpl repeat. rewrite repeat_cons.
  fold (undo_lines (List.length l)). rewrite run_app, Hrun.
  assert (HU : step st' "UNDO" = Val (st', [msg_undo])).
  { rewrite (step_UNDO st' Hc'). now apply exec_UNDO_empty. }
  now rewrite (run_one _ _ _ _ HU).
Qed.

Lemma X11_witness :
  let st := mkSession "b" true 10
              (WeightedUndoStack.mk
                 [mkAction "bbb" "b" 2; mkAction "aaa" "bbb" 3] 5 10) [] in
  let l := WeightedUndoStack.nodes (undoStack st) in
  exists st',
    run st (undo_lines (List.length l)) = ([], Val st') /\
    run st (undo_lines (S (List.length l))) = ([msg_undo], Val st') /\
    WeightedUndoStack.nodes (undoStack st') = [] /\
    redoStack st' = rev l ++ redoStack st /\
    current st' = last (map prev l) (current st).
Proof. apply X11_undo_until_error. reflexivity. Defined.

(** One REDO per node of the Redo List, in a session keeping the invariants. *)
Lemma redo_run (r : list Action) :
  forall st,
    Inv st -> Budget st ->
    WeightedUndoStack.maxWeight_ (undoStack st) <= INT_MAX ->
    created st = true -> redoStack st = r ->
    exists st',
      run st (redo_lines (List.length r)) = ([], Val st') /\
      created st' = true /\
      redoStack st' = [] /\
      WeightedUndoStack.nodes (undoStack st')
      = rev r ++ WeightedUndoStack.nodes (undoStack st) /\
      current st' = last (map next r) (current st).
Proof.
  induction r as [|a r IH]; intros st HI HB Hint Hc E.
  - exists st. simpl. auto.
  - destruct (redo_keeps_all st a r HI HB Hint E) as [_ HR].
    destruct (Good_REDO st _ a r [] HI HB Hint Hc E HR) as (HI' & HB' & Hm').
    rewrite <- (step_REDO st Hc) in HR.
    change (redo_lines (List.length (a :: r)))
      with ("REDO" :: redo_lines (List.length r)).
    rewrite (run_cons_Val _ _ _ _ HR).
    edestruct IH as (st' & Hrun & Hc' & Hr' & Hn' & Hcur');
      [| | | | |exists st'; split; [exact Hrun|]].
    + exact HI'.
    + exact HB'.
    + exact Hint.
    + exact Hc.
    + reflexivity.
    + split; [exact Hc'|]. split; [exact Hr'|]. simpl in Hn', Hcur'.
      split; [rewrite Hn'; simpl; rewrite <- app_assoc; reflexivity|].
      rewrite Hcur'. destruct r as [|b r]; [reflexivity|].
      apply last_cons_default.
Qed.

(** X12: in an Active session reached while the cap plus the length of the
    buffer fitted in an [int], every node of the Redo List can be redone: as
    many REDOs as it has nodes all succeed, none of them evicts anything,
    the Undo List receives the nodes in order, and the buffer ends as the
    after-text of the last one; the next REDO writes the error line and
    changes nothing. *)
Theorem X12_redo_until_error :
  forall st,
    reachable_fits st -> created st = true ->
    let r := redoStack st in
    exists st',
      run st (redo_lines (List.length r)) = ([], Val st') /\
      run st (redo_lines (S (List.length r))) = ([msg_redo], Val st') /\
      redoStack st' = [] /\
      WeightedUndoStack.nodes (undoStack st')
      = rev r ++ WeightedUndoStack.nodes (undoStack st) /\
      current st' = last (map next r) (current st).
Proof.
  intros st Hr Hc r.
  destruct (reachable_fits_Good st Hr) as (HI & HB & Hf).
  destruct (redo_run r st HI HB (fits_int_cap st Hf) Hc eq_refl)
    as (st' & Hrun & Hc' & Hr' & Hn' & Hcur').
  exists st'. split; [exact Hrun|]. split; [|auto].
  unfold redo_lines. simpl repeat. rewrite repeat_cons.
  fold (redo_lines (List.length r)). rewrite run_app, Hrun.
  assert (HR : step st' "REDO" = Val (st', [msg_redo])).
  { rewrite (step_REDO st' Hc'). now apply exec_REDO_empty. }
  now rewrite (run_one _ _ _ _ HR).
Qed.

Lemma X12_witness :
  let st := mkSession "abc" true 5
              (WeightedUndoStack.mk [] 0 5)
              [mkAction "abc" "abcde" 2; mkAction "abcde" "abcdefgh" 3] in
  let r := redoStack st in
  exists st',
    run st (redo_lines (List.length r)) = ([], Val st') /\
    run st (redo_lines (S (List.length r))) = ([msg_redo], Val st') /\
    redoStack st' = [] /\
    WeightedUndoStack.nodes (undoStack st')
    = rev r ++ WeightedUndoStack.nodes (undoStack st) /\
    current st' = last (map next r) (current st).
Proof.
  apply X12_redo_until_error.
  - exists ["CREATE 5 abc"; "APPEND de"; "APPEND fgh"; "UNDO"; "UNDO"], [].
    split; reflexivity.
  - reflexivity.
Defined.

(** ** The editing branches *)



(** X14: repeating a REPLACE with two different characters is a recorded
    no-op: the second one finds nothing, leaves the buffer as it is and
    pushes an action of weight 0 whose two texts are that buffer. *)
Theorem X14_replace_twice :
  forall findc repc st,
    findc <> repc ->
    let st1 := exec_REPLACE findc repc st in
    action_of (Replace findc repc) (current st1)
    = mkAction (current st1) (current st1) 0 /\
    current (exec_REPLACE findc repc st1) = current st1.
Proof.
  intros findc repc st Hneq st1.
  assert (Hocc : occurs findc (current st1) = false).
  { unfold st1. change (exec_REPLACE findc repc st)
      with (exec_edit (Replace findc repc) st).
    rewrite exec_edit_current. simpl.
    assert (H : forall s, occurs findc (fst (replace_loop findc repc s)) = false).
    { induction s as [|c s IH]; simpl; [reflexivity|].
      destruct (replace_loop findc repc s) as [s' n]. simpl in IH.
      destruct (Ascii.eqb c findc) eqn:E; simpl; rewrite IH.
      - destruct (Ascii.eqb_spec repc findc); [congruence | reflexivity].
      - now rewrite E. }
    specialize (H (current st)).
    now destruct (replace_loop findc repc (current st)). }
  assert (Ha : action_of (Replace findc repc) (current st1)
               = mkAction (current st1) (current st1) 0).
  { simpl. now rewrite (replace_absent findc repc _ Hocc). }
  split; [exact Ha|].
  change (exec_REPLACE findc repc st1) with (exec_edit (Replace findc repc) st1).
  rewrite exec_edit_current, Ha. reflexivity.
Qed.

Lemma X14_witness :
  let st1 := exec_REPLACE "a" "b" (exec_CREATE 10 "banana" initial) in
  action_of (Replace "a" "b") (current st1)
  = mkAction (current st1) (current st1) 0 /\
  current (exec_REPLACE "a" "b" st1) = current st1.
Proof. apply X14_replace_twice. discriminate. Defined.

Lemma length_append (s1 s2 : string) :
  String.length (String.append s1 s2)
  = (String.length s1 + String.length s2)%nat.
Proof. induction s1 as [|c s1 IH]; simpl; [reflexivity | now rewrite IH]. Qed.

Lemma substring_split (s : string) :
  forall n,
    (n <= String.length s)%nat ->
    exists removed,
      s = String.append (substring 0 n s) removed /\
      String.length (substring 0 n s) = n.
Proof.
  induction s as [|c s IH]; intros n Hn; simpl in Hn.
  - assert (n = 0%nat) by lia. subst n. now exists EmptyString.
  - destruct n as [|n]; simpl.
    + now exists (String c s).
    + destruct (IH n) as (removed & Hs & Hl); [lia|].
      exists removed. split; [now rewrite <- Hs | now rewrite Hl].
Qed.

(** X15: DELETE truncates.  On a buffer whose length fits in an [int],
    whatever the index, the new buffer is an initial part of the old one,
    its length is the index clamped into [0, length], and the weight of the
    action is the number of characters cut off: a negative index empties
    the buffer, an index at or beyond the end removes nothing. *)
Theorem X15_delete_truncates :
  forall idx buf,
    size buf <= INT_MAX ->
    let a := action_of (Delete idx) buf in
    prev a = buf /\
    size (next a) = Z.max 0 (Z.min idx (size buf)) /\
    exists removed,
      buf = String.append (next a) removed /\ weight a = size removed.
Proof.
  intros idx buf Hint a. pose proof (size_nonneg buf) as H0.
  set (idx1 := if idx <? 0 then 0 else idx).
  set (i := if idx1 >? size buf then size buf else idx1).
  assert (Hi : i = Z.max 0 (Z.min idx (size buf))).
  { unfold i, idx1. destruct (Z.ltb_spec idx 0);
      match goal with |- context [?x >? ?y] => destruct (Z.gtb_spec x y) end;
      lia. }
  assert (Ha : a = mkAction buf (substring 0 (Z.to_nat i) buf) (size buf - i)).
  { unfold a, i, idx1. cbn [action_of].
    now rewrite to_int_small by (unfold INT_MIN; lia). }
  destruct (substring_split buf (Z.to_nat i)) as (removed & Hs & Hl).
  { unfold size in *. lia. }
  rewrite Ha. simpl. split; [reflexivity|].
  split; [unfold size in *; rewrite Hl; lia|].
  exists removed. split; [exact Hs|].
  apply (f_equal String.length) in Hs. rewrite length_append, Hl in Hs.
  unfold size in *. lia.
Qed.

Lemma X15_witness :
  let a := action_of (Delete 2) "abcde" in
  prev a = "abcde" /\
  size (next a) = Z.max 0 (Z.min 2 (size "abcde")) /\
  exists removed,
    "abcde" = String.append (next a) removed /\ weight a = size removed.
Proof. apply X15_delete_truncates. unfold size, INT_MAX. simpl. lia. Defined.


(** ** The Undo List *)

(** The loop drops a node only while the total is above the cap. *)
Lemma trim_loop_needed (l : list Action) :
  forall total maxw kept total',
    WeightedUndoStack.trim_loop l total maxw = (kept, total') ->
    forall older b, l = older ++ b :: kept ->
    total - sum_weights older > maxw.
Proof.
  induction l as [|b0 above IH]; intros total maxw kept total' H older b Hl.
  - destruct older; discriminate.
  - simpl in H. destruct (Z.gtb_spec total maxw) as [Hgt|Hle].
    + destruct older as [|o older]; simpl in Hl; inversion Hl; subst.
      * simpl. lia.
      * specialize (IH _ _ _ _ H older b eq_refl). simpl. lia.
    + inversion H; subst. apply (f_equal (@List.length Action)) in Hl.
      rewrite length_app in Hl. simpl in Hl. lia.
Qed.

Lemma trim_needed (s : WeightedUndoStack.t) (kept older : list Action)
    (b : Action) :
  WeightedUndoStack.totalWeight_ s <= sum_weights (WeightedUndoStack.nodes s) ->
  WeightedUndoStack.nodes s = kept ++ b :: older ->
  WeightedUndoStack.nodes (WeightedUndoStack.trim s) = kept ->
  sum_weights kept + weight b > WeightedUndoStack.maxWeight_ s.
Proof.
  intros Ht Hn Hk. unfold WeightedUndoStack.trim in Hk.
  destruct (WeightedUndoStack.trim_loop (rev (WeightedUndoStack.nodes s))
              (WeightedUndoStack.totalWeight_ s)
              (WeightedUndoStack.maxWeight_ s)) as [kept' total'] eqn:E.
  simpl in Hk.
  assert (Hk' : kept' = rev kept) by (rewrite <- Hk; now rewrite rev_involutive).
  subst kept'.
  pose proof (trim_loop_needed _ _ _ _ _ E (rev older) b) as H.
  rewrite Hn, rev_app_distr in H. simpl in H. rewrite <- app_assoc in H.
  specialize (H eq_refl). rewrite sum_weights_rev in H.
  rewrite Hn, sum_weights_app in Ht. simpl in Ht. lia.
Qed.

(** X16: trimming evicts no more than it must.  On a stack whose cached
    total is exact, if [push] (or [setMaxWeight]) keeps the nodes [kept] and
    drops the next older node [b], then [kept] together with [b] would
    weigh more than the cap: keeping one more node would not fit. *)
Theorem X16_eviction_is_minimal :
  (forall a s kept b older,
     WeightedUndoStack.totalWeight_ s = sum_weights (WeightedUndoStack.nodes s) ->
     a :: WeightedUndoStack.nodes s = kept ++ b :: older ->
     WeightedUndoStack.nodes (WeightedUndoStack.push a s) = kept ->
     sum_weights kept + weight b > WeightedUndoStack.maxWeight_ s) /\
  (forall mw s kept b older,
     WeightedUndoStack.totalWeight_ s = sum_weights (WeightedUndoStack.nodes s) ->
     WeightedUndoStack.nodes s = kept ++ b :: older ->
     WeightedUndoStack.nodes (WeightedUndoStack.setMaxWeight mw s) = kept ->
     sum_weights kept + weight b > Z.max 0 mw).
Proof.
  split.
  - intros a s kept b older Ht Hn Hk.
    pose proof (int_add_le (WeightedUndoStack.totalWeight_ s) (weight a)).
    apply (trim_needed
             (WeightedUndoStack.mk (a :: WeightedUndoStack.nodes s)
                (int_add (WeightedUndoStack.totalWeight_ s) (weight a))
                (WeightedUndoStack.maxWeight_ s)) kept older b);
      simpl; [lia | exact Hn | exact Hk].
  - intros mw s kept b older Ht Hn Hk.
    replace (Z.max 0 mw) with (if mw <? 0 then 0 else mw)
      by (destruct (Z.ltb_spec mw 0); lia).
    apply (trim_needed
             (WeightedUndoStack.mk (WeightedUndoStack.nodes s)
                (WeightedUndoStack.totalWeight_ s)
                (if mw <? 0 then 0 else mw)) kept older b);
      simpl; [lia | exact Hn | exact Hk].
Qed.

Lemma X16_witness :
  (let a := mkAction "abc" "abcd" 1 in
   let b := mkAction "ab" "abc" 1 in
   let c := mkAction "a" "ab" 1 in
   sum_weights [a] + weight b > 1) /\
  (let b := mkAction "ab" "abc" 1 in
   let c := mkAction "a" "ab" 5 in
   sum_weights [b] + weight c > Z.max 0 2).
Proof.
  destruct X16_eviction_is_minimal as [Hpush Hset]. split.
  - apply (Hpush (mkAction "abc" "abcd" 1)
             (WeightedUndoStack.mk
                [mkAction "ab" "abc" 1; mkAction "a" "ab" 1] 2 1)
             [mkAction "abc" "abcd" 1] (mkAction "ab" "abc" 1)
             [mkAction "a" "ab" 1]); reflexivity.
  - apply (Hset 2
             (WeightedUndoStack.mk
                [mkAction "ab" "abc" 1; mkAction "a" "ab" 5] 6 9)
             [mkAction "ab" "abc" 1] (mkAction "a" "ab" 5) []); reflexivity.
Defined.

(** X17: [push] never reorders and never keeps an old node while dropping a
    newer one: afterwards the Undo List is empty, or it is the pushed action
    on top of the newest part of what was there, the rest (the oldest part)
    being what was evicted.  The cap is unchanged. *)
Theorem X17_push_keeps_newest :
  forall a s,
    WeightedUndoStack.maxWeight_ (WeightedUndoStack.push a s)
    = WeightedUndoStack.maxWeight_ s /\
    (WeightedUndoStack.nodes (WeightedUndoStack.push a s) = [] \/
     exists kept evicted,
       WeightedUndoStack.nodes (WeightedUndoStack.push a s) = a :: kept /\
       WeightedUndoStack.nodes s = kept ++ evicted).
Proof.
  intros a s. split; [apply push_maxWeight|].
  destruct (push_nodes a s) as [ev Hev].
  destruct (WeightedUndoStack.nodes (WeightedUndoStack.push a s))
    as [|a' kept]; [now left|].
  right. simpl in Hev. inversion Hev; subst. now exists kept, ev.
Qed.

(** X18: [push] then [pop] is the identity when the action fits: on a stack
    with a non-negative total and a cap that is an [int], pushing an action
    that keeps the total within the cap and popping at once returns that
    action and the stack as it was. *)
Theorem X18_push_pop_round_trip :
  forall a s,
    0 <= WeightedUndoStack.totalWeight_ s ->
    0 <= weight a ->
    WeightedUndoStack.maxWeight_ s <= INT_MAX ->
    WeightedUndoStack.totalWeight_ s + weight a <= WeightedUndoStack.maxWeight_ s ->
    WeightedUndoStack.pop (WeightedUndoStack.push a s) = Val (a, s).
Proof.
  intros a s H0 Ha Hint Hfit. rewrite push_fits by lia.
  unfold WeightedUndoStack.pop. simpl.
  replace (WeightedUndoStack.totalWeight_ s + weight a - weight a)
    with (WeightedUndoStack.totalWeight_ s) by ring.
  rewrite clamp0_id by exact H0. now destruct s.
Qed.

Lemma X18_witness :
  let s := WeightedUndoStack.mk [mkAction "a" "ab" 1] 1 3 in
  let a := mkAction "ab" "abcd" 2 in
  WeightedUndoStack.pop (WeightedUndoStack.push a s) = Val (a, s).
Proof. apply X18_push_pop_round_trip; simpl; unfold INT_MAX; lia. Defined.

(** An action that fits under the cap on its own stays on top after its
    push. *)
Lemma push_light_stays (a : Action) (s : WeightedUndoStack.t) :
  WeightedUndoStack.totalWeight_ s = sum_weights (WeightedUndoStack.nodes s) ->
  weight a <= WeightedUndoStack.maxWeight_ s ->
  exists kept, WeightedUndoStack.nodes (WeightedUndoStack.push a s) = a :: kept.
Proof.
  intros Ht Hw.
  destruct (WeightedUndoStack.nodes (WeightedUndoStack.push a s))
    as [|a' kept] eqn:E.
  - exfalso.
    pose proof (int_add_le (WeightedUndoStack.totalWeight_ s) (weight a)).
    pose proof (trim_needed
                  (WeightedUndoStack.mk (a :: WeightedUndoStack.nodes s)
                     (int_add (WeightedUndoStack.totalWeight_ s) (weight a))
                     (WeightedUndoStack.maxWeight_ s))
                  [] (WeightedUndoStack.nodes s) a) as Hneed.
    simpl in Hneed. specialize (Hneed ltac:(lia) eq_refl E). lia.
  - destruct (push_nodes a s) as [ev Hev]. rewrite E in Hev.
    simpl in Hev. inversion Hev; subst. now exists kept.
Qed.

(** ** The session *)

(** X19: whether an edit can be undone at once is decided by its own weight.
    In an Active session reached while the cap plus the length of the buffer
    fitted in an [int]: if the weight of the action the edit builds is at
    most the cap, the UNDO that follows succeeds, gives the buffer back and
    leaves that action alone on the Redo List; if it is above the cap, and
    the session after the edit still fits, the action is lost in its own
    push and the UNDO reports that there is nothing to undo. *)
Theorem X19_edit_then_undo :
  forall st e,
    reachable_fits st -> created st = true ->
    let a := action_of e (current st) in
    (weight a <= WeightedUndoStack.maxWeight_ (undoStack st) ->
     exists st',
       step (exec_edit e st) "UNDO" = Val (st', []) /\
       current st' = current st /\ redoStack st' = [a]) /\
    (fits_int (exec_edit e st) = true ->
     weight a > WeightedUndoStack.maxWeight_ (undoStack st) ->
     step (exec_edit e st) "UNDO" = Val (exec_edit e st, [msg_undo])).
Proof.
  intros st e Hr Hc a.
  destruct (reachable_fits_Good st Hr) as (HI & _ & Hf).
  pose proof HI as [Hwf Hcap _ _ _].
  assert (Hc' : created (exec_edit e st) = true)
    by now rewrite exec_edit_created.
  rewrite (step_UNDO _ Hc').
  split.
  - intros Hw. rewrite exec_edit_action. fold a.
    destruct Hwf as (Ht & _ & _).
    destruct (push_light_stays a (undoStack st) Ht Hw) as [kept Hk].
    eexists. split; [apply (exec_UNDO_top _ a kept); exact Hk|].
    simpl. split; [apply action_of_prev | reflexivity].
  - intros Hf' Hw.
    destruct (edit_weight_fits e st) as [Ha Hint]; auto; [apply Hwf|].
    fold a in Ha, Hint.
    apply exec_UNDO_empty. rewrite exec_edit_action. fold a. simpl.
    rewrite push_overweight; [reflexivity | exact Hwf | exact Hw | lia].
Qed.

Lemma X19_witness :
  let st := exec_CREATE 2 "abc" initial in
  (exists st',
     step (exec_edit (Delete 1) st) "UNDO" = Val (st', []) /\
     current st' = current st /\
     redoStack st' = [action_of (Delete 1) (current st)]) /\
  step (exec_edit (Append "xyz") st) "UNDO"
  = Val (exec_edit (Append "xyz") st, [msg_undo]).
Proof.
  assert (Hr : reachable_fits (exec_CREATE 2 "abc" initial))
    by (exists ["CREATE 2 abc"], []; split; reflexivity).
  split.
  - apply (X19_edit_then_undo _ (Delete 1) Hr eq_refl).
    vm_compute. discriminate.
  - apply (X19_edit_then_undo _ (Append "xyz") Hr eq_refl).
    + reflexivity.
    + vm_compute. reflexivity.
Defined.

Lemma weight_le_sum (a : Action) (l : list Action) :
  nonneg l -> In a l -> 0 <= weight a <= sum_weights l.
Proof.
  induction 1 as [|b l Hb Hl IH]; intros Hin; [contradiction|].
  pose proof (sum_weights_nonneg _ Hl). simpl.
  destruct Hin as [-> | Hin]; [lia|]. specialize (IH Hin). lia.
Qed.

(** X20: in every session reached while the cap plus the length of the
    buffer fitted in an [int], each action held by the Undo List or by the
    Redo List has a weight between 0 and the cap. *)
Theorem X20_kept_actions_fit :
  forall st a,
    reachable_fits st ->
    In a (WeightedUndoStack.nodes (undoStack st)) \/ In a (redoStack st) ->
    0 <= weight a <= WeightedUndoStack.maxWeight_ (undoStack st).
Proof.
  intros st a Hr Hin.
  destruct (reachable_fits_Good st Hr)
    as ([(Ht & Hnn & _) _ Hredo _ _] & [Hfit _ _] & _).
  pose proof (sum_weights_nonneg _ Hnn). pose proof (sum_weights_nonneg _ Hredo).
  destruct Hin as [Hin | Hin].
  - pose proof (weight_le_sum a _ Hnn Hin). lia.
  - pose proof (weight_le_sum a _ Hredo Hin). lia.
Qed.

Lemma X20_witness :
  let st := mkSession "abc" true 5
              (WeightedUndoStack.mk [mkAction "ab" "abc" 1] 1 5)
              [mkAction "abc" "abcdefg" 4] in
  0 <= weight (mkAction "abc" "abcdefg" 4)
    <= WeightedUndoStack.maxWeight_ (undoStack st).
Proof.
  apply X20_kept_actions_fit.
  - exists ["CREATE 5 ab"; "APPEND c"; "APPEND defg"; "UNDO"], [].
    split; reflexivity.
  - right. left. reflexivity.
Defined.

Lemma back_adjacent (l1 : list Action) :
  forall cur a b l2 origin,
    back cur (l1 ++ a :: b :: l2) origin -> next b = prev a.
Proof.
  induction l1 as [|x l1 IH]; intros cur a b l2 origin H; simpl in H.
  - tauto.
  - destruct H as [_ H]. now apply IH in H.
Qed.

Lemma forth_adjacent (l1 : list Action) :
  forall cur a b l2 final,
    forth cur (l1 ++ a :: b :: l2) final -> next a = prev b.
Proof.
  induction l1 as [|x l1 IH]; intros cur a b l2 final H; simpl in H.
  - destruct H as [_ [H _]]. now symmetry.
  - destruct H as [_ H]. now apply IH in H.
Qed.

(** X21: the history is one consistent time line.  In every reachable
    session, for two neighbouring nodes of the Undo List the after-text of
    the older is the before-text of the newer; for two neighbouring nodes
    of the Redo List the after-text of the one nearer the head is the
    before-text of the next; and the head of the Redo List starts from the
    buffer. *)
Theorem X21_history_is_a_time_line :
  forall st,
    reachable st ->
    (forall l1 newer older l2,
       WeightedUndoStack.nodes (undoStack st) = l1 ++ newer :: older :: l2 ->
       next older = prev newer) /\
    (forall l1 first second l2,
       redoStack st = l1 ++ first :: second :: l2 ->
       next first = prev second) /\
    (forall a r, redoStack st = a :: r -> prev a = current st).
Proof.
  intros st Hr. destruct (reachable_Basic st Hr) as [[o Hb] [f Hf] _ _ _].
  split; [|split].
  - intros l1 newer older l2 E. rewrite E in Hb.
    apply (back_adjacent _ _ _ _ _ _ Hb).
  - intros l1 a b l2 E. rewrite E in Hf. apply (forth_adjacent _ _ _ _ _ _ Hf).
  - intros a r E. rewrite E in Hf. simpl in Hf. tauto.
Qed.

Lemma X21_witness :
  let st := mkSession "abc" true 9
              (WeightedUndoStack.mk
                 [mkAction "ab" "abc" 1; mkAction "a" "ab" 1] 2 9)
              [mkAction "abc" "abcd" 1; mkAction "abcd" "abcde" 1] in
  (forall l1 newer older l2,
     WeightedUndoStack.nodes (undoStack st) = l1 ++ newer :: older :: l2 ->
     next older = prev newer) /\
  (forall l1 first second l2,
     redoStack st = l1 ++ first :: second :: l2 ->
     next first = prev second) /\
  (forall a r, redoStack st = a :: r -> prev a = current st).
Proof.
  apply X21_history_is_a_time_line.
  exists ["CREATE 9 a"; "APPEND b"; "APPEND c"; "APPEND d"; "APPEND e";
          "UNDO"; "UNDO"], [].
  reflexivity.
Defined.

(** X22: a line never both changes the session and writes output.  Whenever
    a line is processed without failure, it writes nothing, or it leaves the
    session untouched and writes exactly one line: the buffer (PRINT in an
    Active session), the nothing-to-undo message (only with an empty Undo
    List) or the nothing-to-redo message (only with an empty Redo List). *)
Theorem X22_output_or_change :
  forall st line st' out,
    step st line = Val (st', out) ->
    out = [] \/
    (st' = st /\ created st = true /\
     (out = [current st] \/
      (out = [msg_undo] /\ WeightedUndoStack.nodes (undoStack st) = []) \/
      (out = [msg_redo] /\ redoStack st = []))).
Proof.
  intros st line st' out H.
  destruct (step_cases st st' line out H)
    as [[Hst Hout] | [[Hout _] | [(_ & Hout & _) | [[Hc HU] | [Hc HR]]]]].
  - destruct Hout as [Hout | [Hc Hout]]; [now left|].
    right. split; [exact Hst|]. split; [exact Hc | now left].
  - now left.
  - now left.
  - destruct (WeightedUndoStack.nodes (undoStack st)) as [|a below] eqn:E.
    + rewrite (exec_UNDO_empty st E) in HU. inversion HU; subst.
      right. split; [reflexivity|]. split; [exact Hc|]. right. left. now split.
    + rewrite (exec_UNDO_top st a below E) in HU. inversion HU; subst. now left.
  - destruct (redoStack st) as [|a r] eqn:E.
    + rewrite (exec_REDO_empty st E) in HR. inversion HR; subst.
      right. split; [reflexivity|]. split; [exact Hc|]. right. right. now split.
    + rewrite (exec_REDO_top st a r E) in HR. inversion HR; subst. now left.
Qed.

Lemma X22_witness :
  let st := exec_CREATE 3 "abc" initial in
  [msg_undo] = [] \/
  (st = st /\ created st = true /\
   ([msg_undo] = [current st] \/
    ([msg_undo] = [msg_undo] /\ WeightedUndoStack.nodes (undoStack st) = []) \/
    ([msg_undo] = [msg_redo] /\ redoStack st = []))).
Proof.
  apply (X22_output_or_change (exec_CREATE 3 "abc" initial) "UNDO").
  reflexivity.
Defined.
